(** * Shortify: the slug codec and the shortening request path

    A shallow embedding of [src/api/shorten.py]: the Base62 slug codec
    ([encode_base62]), the counter allocator ([get_next_counter]) and the
    request handler ([shorten_url]), together with the properties of the
    codec and of the handler running against a key-value store.

    Python integers are unbounded, so they are [Z]; [%] and [//] with a
    positive divisor are [Z.modulo] and [Z.div].  Python strings are
    [string]; the store maps string keys to string values ([gmap]). *)

From Stdlib Require Import ZArith List Lia String Ascii.
From Stdlib Require Import DecimalString DecimalZ.
From Equations Require Import Equations.
From stdpp Require Import base gmap strings.
Import ListNotations.
Open Scope Z_scope.

(* ====================================================================== *)
(** ** Slug codec *)
(* ====================================================================== *)

(** [BASE62_CHARS] (line 37): digits, then upper case, then lower case. *)
Definition BASE62_CHARS : string :=
  "0123456789ABCDEFGHIJKLMNOPQRSTUVWXYZabcdefghijklmnopqrstuvwxyz".

(** Python's [s[i]] on a string: a negative index counts from the end, an
    index out of range raises [IndexError] (here [None]); the result is a
    string of one character. *)
Definition str_index (s : string) (i : Z) : option string :=
  let n := Z.of_nat (String.length s) in
  let j := if i <? 0 then i + n else i in
  if (0 <=? j) && (j <? n)
  then option_map (fun c => String c EmptyString) (String.get (Z.to_nat j) s)
  else None.

(** [BASE62_CHARS[i]].  The codec only indexes with [0] and with [num % 62],
    which lie in [0, 62): the [IndexError] branch is never taken there
    (lemma [BASE62_CHARS_at_digit]). *)
Definition BASE62_CHARS_at (i : Z) : string :=
  match str_index BASE62_CHARS i with
  | Some c => c
  | None => ""
  end.

(** The loop of [encode_base62] (lines 81-83):
    [while num > 0: result.append(BASE62_CHARS[num % 62]); num //= 62]. *)
Equations? encode_loop (num : Z) (result : list string) : list string
  by wf (Z.to_nat num) lt :=
  encode_loop num result with Z_gt_dec num 0 := {
    | left _ => encode_loop (num / 62) (result ++ [BASE62_CHARS_at (num mod 62)]);
    | right _ => result }.
Proof.
  assert (num / 62 < num) by (apply Z.div_lt; lia).
  assert (0 <= num / 62) by (apply Z.div_pos; lia). lia.
Qed.

(** [sep.join(l)]. *)
Definition str_join (sep : string) (l : list string) : string :=
  String.concat sep l.

(** [encode_base62] (lines 64-85). *)
Definition encode_base62 (num : Z) : string :=
  if num =? 0 then BASE62_CHARS_at 0
  else str_join "" (rev (encode_loop num [])).

(** The digits produced by the loop, most significant first: what
    [encode_base62] returns once the zero branch is passed. *)
Definition enc (n : Z) : string := str_join "" (rev (encode_loop n [])).

(** *** Decoding *)

Inductive CodecError := InvalidSlug.

(** [s.find(c)]: position of the first occurrence of a character. *)
Fixpoint str_find (c : ascii) (s : string) : option Z :=
  match s with
  | EmptyString => None
  | String c' s' =>
      if Ascii.eqb c c' then Some 0 else option_map Z.succ (str_find c s')
  end.

(** Modelled from the spec: the decoder, which [src/api/shorten.py] does
    not define.  Section 4.1: the inverse of encode over the same
    alphabet, most significant digit first, failing with [InvalidSlug] on
    the empty string and on any character outside the alphabet. *)
Fixpoint decode_loop (s : string) (acc : Z) : CodecError + Z :=
  match s with
  | EmptyString => inr acc
  | String c s' =>
      match str_find c BASE62_CHARS with
      | None => inl InvalidSlug
      | Some d => decode_loop s' (acc * 62 + d)
      end
  end.

(** Modelled from the spec: [decode(s)] of section 4.1 (see [decode_loop]). *)
Definition decode_base62 (s : string) : CodecError + Z :=
  match s with
  | EmptyString => inl InvalidSlug
  | _ => decode_loop s 0
  end.

(* ====================================================================== *)
(** ** The key-value store *)
(* ====================================================================== *)

Definition INT64_MAX : Z := 9223372036854775807.
Definition INT64_MIN : Z := -9223372036854775808.

(** Decimal form of a counter value, as the store keeps it. *)
Definition print_int (z : Z) : string := NilEmpty.string_of_int (Z.to_int z).

(** A stored value read as a signed 64-bit integer: only the canonical
    decimal form of a value in range is accepted. *)
Definition parse_int (s : string) : option Z :=
  match NilEmpty.int_of_string s with
  | Some d =>
      let z := Z.of_int d in
      if String.eqb (print_int z) s && (INT64_MIN <=? z) && (z <=? INT64_MAX)
      then Some z else None
  | None => None
  end.

(** Exceptions raised by the store client. *)
Inductive StoreError :=
| ConnectionFailed
| StoreTimeout
| ResponseError (msg : string).

(** The three store operations the program issues. *)
Inductive Op :=
| INCR (key : string)
| GET (key : string)
| SET (key value : string).

(** A failure of one attempt at a store call: the error the client sees,
    and whether the store had applied the operation before the failure
    reached the client. *)
Record Fault := mkFault { fault_error : StoreError; fault_applied : bool }.

(** Modelled from the spec: the external store of section 6 and its
    environment.  [kv] is the single key space, [net] scripts the outcome
    of the upcoming attempts to reach the store ([None]: the reply
    arrives; an exhausted script means no further failure), [calls] logs
    every call the program issued with its outcome, oldest first. *)
Record World := mkWorld {
  kv : gmap string string;
  net : list (option Fault);
  calls : list (Op * option StoreError)
}.

(** Result of a computation that may raise. *)
Inductive Outcome (A : Type) :=
| Return (a : A)
| Raise (e : StoreError).
Arguments Return {A} a.
Arguments Raise {A} e.

(** State and exception monad of the request path. *)
Definition M (A : Type) : Type := World -> Outcome A * World.

Definition ret {A} (a : A) : M A := fun w => (Return a, w).

(** Sequencing: an exception skips the rest, as in Python without
    [try]/[except]. *)
Definition bind {A B} (c : M A) (k : A -> M B) : M B :=
  fun w => match c w with
           | (Return a, w') => k a w'
           | (Raise e, w') => (Raise e, w')
           end.

Notation "x <- c ;; k" := (bind c (fun x => k))
  (at level 100, c at next level, right associativity).

(** The client of lines 31-34 is built with its defaults, under which a
    call whose reply does not arrive is issued again, once. *)
Definition REST_RETRIES : nat := 1.

(** What an attempt whose reply is lost leaves in the store. *)
Definition lost_attempt {A}
    (apply : gmap string string -> StoreError + (A * gmap string string))
    (f : Fault) (m : gmap string string) : gmap string string :=
  if fault_applied f
  then match apply m with
       | inr (_, m1) => m1
       | inl _ => m
       end
  else m.

(** Modelled from the spec: the attempts of one call to the store of
    section 6, made as the client of lines 31-34 makes them.  Each attempt
    takes the next entry of the script.  When the reply arrives the call
    ends: with the result, or with the error the store answered.  When it
    does not, the call is attempted again while retries are left, and else
    raises the last failure. *)
Fixpoint attempts {A} (retries : nat)
    (apply : gmap string string -> StoreError + (A * gmap string string))
    (m : gmap string string) (script : list (option Fault))
    : Outcome A * gmap string string * list (option Fault) :=
  match hd None script with
  | None =>
      match apply m with
      | inr (a, m1) => (Return a, m1, tl script)
      | inl e => (Raise e, m, tl script)
      end
  | Some f =>
      match retries with
      | O => (Raise (fault_error f), lost_attempt apply f m, tl script)
      | S n => attempts n apply (lost_attempt apply f m) (tl script)
      end
  end.

(** The outcome of a call as the log records it. *)
Definition outcome_error {A} (res : Outcome A) : option StoreError :=
  match res with
  | Return _ => None
  | Raise e => Some e
  end.

(** Modelled from the spec: one call to the store through the client. *)
Definition store_call {A} (op : Op)
    (apply : gmap string string -> StoreError + (A * gmap string string)) : M A :=
  fun w =>
    match attempts REST_RETRIES apply (kv w) (net w) with
    | (res, m, rest) =>
        (res, mkWorld m rest (calls w ++ [(op, outcome_error res)]))
    end.

(** Modelled from the spec: [GET(key) -> string | absent]. *)
Definition redis_get (key : string) : M (option string) :=
  store_call (GET key) (fun m => inr (m !! key, m)).

(** Modelled from the spec: [SET(key, value)], no expiration. *)
Definition redis_set (key value : string) : M unit :=
  store_call (SET key value) (fun m => inr (tt, <[key := value]> m)).

(** Modelled from the spec: [INCR(key) -> integer], the atomic
    increment-and-return.  An absent key counts as 0; a value that is not
    a 64-bit integer, or an increment past the largest one, is an error
    reply. *)
Definition incr_apply (key : string) (m : gmap string string)
    : StoreError + (Z * gmap string string) :=
  match m !! key with
  | None => inr (1, <[key := print_int 1]> m)
  | Some s =>
      match parse_int s with
      | None => inl (ResponseError "ERR value is not an integer or out of range")
      | Some z =>
          if z <? INT64_MAX
          then inr (z + 1, <[key := print_int (z + 1)]> m)
          else inl (ResponseError "ERR increment or decrement would overflow")
      end
  end.

Definition redis_incr (key : string) : M Z :=
  store_call (INCR key) (incr_apply key).

(* ====================================================================== *)
(** ** Request path *)
(* ====================================================================== *)

(** A validated URL; [str_of_url] is Python's [str(request.url)]. *)
Record HttpUrl := mkHttpUrl { str_of_url : string }.

(** [ShortenRequest] (lines 45-48). *)
Record ShortenRequest := mkShortenRequest { url : HttpUrl }.

(** [ShortenResponse] (lines 51-56). *)
Record ShortenResponse := mkShortenResponse {
  short_url : string;
  slug : string;
  original_url : string
}.

(** The keys of lines 95, 133, 145 and 147. *)
Definition COUNTER_KEY : string := "shortify:counter".
Definition slug_key (s : string) : string := "shortify:slug:" +:+ s.
Definition url_key (u : string) : string := "shortify:url:" +:+ u.

(** [get_next_counter] (lines 88-96). *)
Definition get_next_counter : M Z :=
  counter <- redis_incr COUNTER_KEY ;;
  ret counter.

(** Python truth value of the result of [redis.get]: [None] and the empty
    string are false. *)
Definition truthy (v : option string) : bool :=
  match v with
  | None => false
  | Some s => negb (String.eqb s "")
  end.

(** [shorten_url] (lines 118-149).  [fresh] is the code after the early
    return (lines 139-149). *)
Definition shorten_url (request : ShortenRequest) : M ShortenResponse :=
  let original_url := str_of_url (url request) in
  let fresh : M ShortenResponse :=
    counter <- get_next_counter ;;
    let slug := encode_base62 counter in
    _ <- redis_set (slug_key slug) original_url ;;
    _ <- redis_set (url_key original_url) slug ;;
    ret (mkShortenResponse ("/" +:+ slug) slug original_url) in
  existing_slug <- redis_get (url_key original_url) ;;
  match existing_slug with
  | Some s =>
      if truthy existing_slug
      then ret (mkShortenResponse ("/" +:+ s) s original_url)
      else fresh
  | None => fresh
  end.

(* ====================================================================== *)
(** ** Vocabulary of the statements *)
(* ====================================================================== *)

(** The response built at lines 135-137 and 149. *)
Definition response (s u : string) : ShortenResponse :=
  mkShortenResponse ("/" +:+ s) s u.

(** Log entries. *)
Definition ok (op : Op) : Op * option StoreError := (op, None).
Definition failed (op : Op) (e : StoreError) : Op * option StoreError :=
  (op, Some e).
Definition succeeded (c : Op * option StoreError) : Prop := c.2 = None.

(** Lines 139-149 as a computation of their own. *)
Definition mint (u : string) : M ShortenResponse :=
  counter <- get_next_counter ;;
  _ <- redis_set (slug_key (encode_base62 counter)) u ;;
  _ <- redis_set (url_key u) (encode_base62 counter) ;;
  ret (response (encode_base62 counter) u).

(** The counter after an increment call: the store applied it once or,
    when a reply was lost and the call issued again, twice. *)
Definition incr_applied (m : gmap string string) (c : Z)
    (m1 : gmap string string) : Prop :=
  incr_apply COUNTER_KEY m = inr (c, m1) \/
  exists c0 m0, incr_apply COUNTER_KEY m = inr (c0, m0) /\
                incr_apply COUNTER_KEY m0 = inr (c, m1).

(** The six ways one request can run: the lookup fails; the URL is known;
    the increment fails; the first write fails; the second write fails;
    a new slug is minted. *)
Inductive shorten_run (u : string) (w : World)
  : Outcome ShortenResponse -> World -> Prop :=
| run_lookup_failed e w' :
    kv w' = kv w ->
    calls w' = calls w ++ [failed (GET (url_key u)) e] ->
    shorten_run u w (Raise e) w'
| run_existing s w' :
    kv w !! url_key u = Some s -> s <> "" ->
    kv w' = kv w ->
    calls w' = calls w ++ [ok (GET (url_key u))] ->
    shorten_run u w (Return (response s u)) w'
| run_incr_failed e w' :
    truthy (kv w !! url_key u) = false ->
    (kv w' = kv w \/ exists c, incr_applied (kv w) c (kv w')) ->
    calls w' = calls w ++ [ok (GET (url_key u)); failed (INCR COUNTER_KEY) e] ->
    shorten_run u w (Raise e) w'
| run_forward_failed e c m1 w' :
    truthy (kv w !! url_key u) = false ->
    incr_applied (kv w) c m1 ->
    (kv w' = m1 \/ kv w' = <[slug_key (encode_base62 c) := u]> m1) ->
    calls w' = calls w ++ [ok (GET (url_key u)); ok (INCR COUNTER_KEY);
                           failed (SET (slug_key (encode_base62 c)) u) e] ->
    shorten_run u w (Raise e) w'
| run_reverse_failed e c m1 w' :
    truthy (kv w !! url_key u) = false ->
    incr_applied (kv w) c m1 ->
    (kv w' = <[slug_key (encode_base62 c) := u]> m1 \/
     kv w' = <[url_key u := encode_base62 c]>
               (<[slug_key (encode_base62 c) := u]> m1)) ->
    calls w' = calls w ++ [ok (GET (url_key u)); ok (INCR COUNTER_KEY);
                           ok (SET (slug_key (encode_base62 c)) u);
                           failed (SET (url_key u) (encode_base62 c)) e] ->
    shorten_run u w (Raise e) w'
| run_minted c m1 w' :
    truthy (kv w !! url_key u) = false ->
    incr_applied (kv w) c m1 ->
    kv w' = <[url_key u := encode_base62 c]>
              (<[slug_key (encode_base62 c) := u]> m1) ->
    calls w' = calls w ++ [ok (GET (url_key u)); ok (INCR COUNTER_KEY);
                           ok (SET (slug_key (encode_base62 c)) u);
                           ok (SET (url_key u) (encode_base62 c))] ->
    shorten_run u w (Return (response (encode_base62 c) u)) w'.

(** The counter of the data model: never issued yet, or a non-negative
    integer. *)
Definition counter_ok (m : gmap string string) : Prop :=
  match m !! COUNTER_KEY with
  | None => True
  | Some s => exists z, parse_int s = Some z /\ 0 <= z
  end.

(** Every reverse mapping holds a slug, which is never the empty string. *)
Definition reverse_ok (m : gmap string string) : Prop :=
  forall u s, m !! url_key u = Some s -> s <> "".

(** The invariant of the store: it holds of the empty store
    ([store_inv_empty]) and every request keeps it, whatever fails
    ([shorten_url_preserves_inv]). *)
Definition store_inv (m : gmap string string) : Prop :=
  counter_ok m /\ reverse_ok m.

(** The worlds the service passes through: it starts on a store that
    nothing was written to, under any script of failures, and serves one
    request after another. *)
Inductive reachable : World -> Prop :=
| reach_init nt : reachable (mkWorld ∅ nt [])
| reach_request rq w : reachable w -> reachable (shorten_url rq w).2.

(** Which key each store call of a request for [u] may use. *)
Definition call_key_ok (u : string) (c : Op * option StoreError) : Prop :=
  match c.1 with
  | GET k => k = url_key u
  | INCR k => k = COUNTER_KEY
  | SET k v => (exists s, k = slug_key s /\ v = u) \/ k = url_key u
  end.

(** Checks over the 62 positions of the alphabet. *)
Definition digit_ok (k : nat) : bool :=
  match BASE62_CHARS_at (Z.of_nat k) with
  | String c EmptyString =>
      match str_find c BASE62_CHARS with
      | Some d => d =? Z.of_nat k
      | None => false
      end
  | _ => false
  end.

Definition comparison_eqb (a b : comparison) : bool :=
  match a, b with
  | Eq, Eq | Lt, Lt | Gt, Gt => true
  | _, _ => false
  end.

Definition order_ok (a b : nat) : bool :=
  comparison_eqb
    (String.compare (BASE62_CHARS_at (Z.of_nat a)) (BASE62_CHARS_at (Z.of_nat b)))
    (Z.of_nat a ?= Z.of_nat b).

(** Sample inputs: a store that nothing was written to and that never
    fails, two requests, and the worlds after serving them in turn. *)
Definition world0 : World := mkWorld ∅ [] [].
Definition request_a : ShortenRequest :=
  mkShortenRequest (mkHttpUrl "https://a.example/").
Definition request_b : ShortenRequest :=
  mkShortenRequest (mkHttpUrl "https://b.example/").
Definition world_a : World := (shorten_url request_a world0).2.
Definition world_ab : World := (shorten_url request_b world_a).2.

(* ====================================================================== *)
(** ** Further vocabulary *)
(* ====================================================================== *)

(** A character of the alphabet. *)
Definition in_alphabet (c : ascii) : bool :=
  match str_find c BASE62_CHARS with
  | Some _ => true
  | None => false
  end.

(** Every character of a string passes a test. *)
Fixpoint str_forall (p : ascii -> bool) (s : string) : bool :=
  match s with
  | EmptyString => true
  | String c s' => p c && str_forall p s'
  end.

(** The counter as the store holds it: 0 before the first increment. *)
Definition counter_value (m : gmap string string) : Z :=
  match m !! COUNTER_KEY with
  | Some s => match parse_int s with Some z => z | None => 0 end
  | None => 0
  end.

(** A slug that the counter has issued. *)
Definition issued (m : gmap string string) (s : string) : Prop :=
  exists c, 1 <= c <= counter_value m /\ s = encode_base62 c.

(** The mappings of a store the service has filled: the counter is in
    order, every reverse mapping holds an issued slug whose forward
    mapping leads back to the URL, and every forward mapping is under an
    issued slug. *)
Definition store_ok (m : gmap string string) : Prop :=
  counter_ok m /\
  (forall u s, m !! url_key u = Some s -> issued m s /\ m !! slug_key s = Some u) /\
  (forall s u, m !! slug_key s = Some u -> issued m s).

(* ====================================================================== *)
(** ** URL validation *)
(* ====================================================================== *)

(** Regular expressions, as far as the pattern of [is_valid_url] uses
    them.  A character class is its membership test. *)
Inductive regex :=
| Void
| Eps
| Class (p : ascii -> bool)
| Cat (r1 r2 : regex)
| Alt (r1 r2 : regex)
| Star (r : regex).

(** The strings a regular expression matches in full. *)
Inductive lang : regex -> string -> Prop :=
| lang_eps : lang Eps ""
| lang_class p c : p c = true -> lang (Class p) (String c "")
| lang_cat r1 r2 s1 s2 :
    lang r1 s1 -> lang r2 s2 -> lang (Cat r1 r2) (s1 +:+ s2)
| lang_alt_l r1 r2 s : lang r1 s -> lang (Alt r1 r2) s
| lang_alt_r r1 r2 s : lang r2 s -> lang (Alt r1 r2) s
| lang_star_nil r : lang (Star r) ""
| lang_star_cons r s1 s2 :
    lang r s1 -> lang (Star r) s2 -> lang (Star r) (s1 +:+ s2).

(** Matching by derivatives. *)
Fixpoint nullable (r : regex) : bool :=
  match r with
  | Void => false
  | Eps => true
  | Class _ => false
  | Cat r1 r2 => nullable r1 && nullable r2
  | Alt r1 r2 => nullable r1 || nullable r2
  | Star _ => true
  end.

Definition cat' (a b : regex) : regex :=
  match a with
  | Void => Void
  | Eps => b
  | _ => match b with Void => Void | _ => Cat a b end
  end.

Definition alt' (a b : regex) : regex :=
  match a with
  | Void => b
  | _ => match b with Void => a | _ => Alt a b end
  end.

Fixpoint deriv (c : ascii) (r : regex) : regex :=
  match r with
  | Void => Void
  | Eps => Void
  | Class p => if p c then Eps else Void
  | Cat r1 r2 =>
      if nullable r1 then alt' (cat' (deriv c r1) r2) (deriv c r2)
      else cat' (deriv c r1) r2
  | Alt r1 r2 => alt' (deriv c r1) (deriv c r2)
  | Star r1 => cat' (deriv c r1) (Star r1)
  end.

(** [re.fullmatch]: the whole string is matched. *)
Fixpoint re_fullmatch (r : regex) (s : string) : bool :=
  match s with
  | EmptyString => nullable r
  | String c s' => re_fullmatch (deriv c r) s'
  end.

(** The operators of the pattern syntax: [r?], [r+], [r{m,n}]. *)
Definition Opt (r : regex) : regex := Alt Eps r.
Definition Plus (r : regex) : regex := Cat r (Star r).

Fixpoint Times (n : nat) (r : regex) : regex :=
  match n with
  | O => Eps
  | S n' => Cat r (Times n' r)
  end.

Fixpoint UpTo (n : nat) (r : regex) : regex :=
  match n with
  | O => Eps
  | S n' => Opt (Cat r (UpTo n' r))
  end.

Definition Range (m n : nat) (r : regex) : regex :=
  Cat (Times m r) (UpTo (n - m) r).

(** Characters.  A string holds characters with codes below 256; among
    those, case only concerns the ASCII letters, [\d] is the ASCII digits,
    and [\s] is the codes 9-13, 28-32, 133 and 160. *)
Definition code (c : ascii) : Z := Z.of_N (N_of_ascii c).

Definition is_digit (c : ascii) : bool := (48 <=? code c) && (code c <=? 57).
Definition is_upper (c : ascii) : bool := (65 <=? code c) && (code c <=? 90).
Definition is_lower (c : ascii) : bool := (97 <=? code c) && (code c <=? 122).
Definition is_space (c : ascii) : bool :=
  ((9 <=? code c) && (code c <=? 13)) || ((28 <=? code c) && (code c <=? 32))
  || (code c =? 133) || (code c =? 160).

Definition to_lower (c : ascii) : ascii :=
  if is_upper c then ascii_of_N (N_of_ascii c + 32) else c.

Fixpoint str_lower (s : string) : string :=
  match s with
  | EmptyString => EmptyString
  | String c s' => String (to_lower c) (str_lower s')
  end.

(** Classes of the pattern, under [re.IGNORECASE]. *)
Definition chr (x : ascii) : regex :=
  Class (fun c => Ascii.eqb (to_lower c) (to_lower x)).

Fixpoint Lit (s : string) : regex :=
  match s with
  | EmptyString => Eps
  | String x s' => Cat (chr x) (Lit s')
  end.

Definition alpha : regex := Class (fun c => is_upper c || is_lower c).
Definition alnum : regex :=
  Class (fun c => is_upper c || is_lower c || is_digit c).
Definition alnum_dash : regex :=
  Class (fun c => is_upper c || is_lower c || is_digit c || Ascii.eqb c "-").
Definition digit : regex := Class is_digit.
Definition nonspace : regex := Class (fun c => negb (is_space c)).
Definition slash_or_query : regex :=
  Class (fun c => Ascii.eqb c "/" || Ascii.eqb c "?").

(** The pattern of lines 102-107, between [^] and [$]. *)
Definition domain_name : regex :=
  Cat (Plus (Cat alnum
               (Cat (Opt (Cat (Range 0 61 alnum_dash) alnum)) (chr "."))))
      (Cat (Range 2 6 alpha) (Opt (chr "."))).

Definition ip_address : regex :=
  Cat (Range 1 3 digit)
    (Cat (chr ".") (Cat (Range 1 3 digit)
       (Cat (chr ".") (Cat (Range 1 3 digit)
          (Cat (chr ".") (Range 1 3 digit)))))).

Definition host : regex := Alt domain_name (Alt (Lit "localhost") ip_address).

Definition url_pattern : regex :=
  Cat (Lit "http") (Cat (Opt (chr "s")) (Cat (Lit "://")
    (Cat host
      (Cat (Opt (Cat (chr ":") (Plus digit)))
           (Alt (Opt (chr "/")) (Cat slash_or_query (Plus nonspace))))))).

Definition newline : ascii := "010"%char.

(** The string without its last character, when that is a newline. *)
Fixpoint strip_final_newline (s : string) : option string :=
  match s with
  | EmptyString => None
  | String c EmptyString => if Ascii.eqb c newline then Some EmptyString else None
  | String c s' => option_map (String c) (strip_final_newline s')
  end.

(** [is_valid_url] (lines 99-110): [url_pattern.match(url) is not None].
    The pattern ends in [$], which matches at the end of the string and
    also just before a newline that ends the string. *)
Definition is_valid_url (url : string) : bool :=
  re_fullmatch url_pattern url
  || match strip_final_newline url with
     | Some body => re_fullmatch url_pattern body
     | None => false
     end.

(** Every character, once. *)
Definition all_ascii : list ascii := map ascii_of_nat (seq 0 256).

(** Every class of a regular expression only holds characters that pass
    a test. *)
Fixpoint classes_within (q : ascii -> bool) (r : regex) : bool :=
  match r with
  | Void | Eps => true
  | Class p => forallb (fun c => implb (p c) (q c)) all_ascii
  | Cat r1 r2 | Alt r1 r2 => classes_within q r1 && classes_within q r2
  | Star r1 => classes_within q r1
  end.

Definition not_space (c : ascii) : bool := negb (is_space c).

(** One to three digits, the shape of an octet in the pattern. *)
Definition digits_1_3 (s : string) : bool :=
  str_forall is_digit s
  && (1 <=? String.length s)%nat && (String.length s <=? 3)%nat.

(** Every class of a regular expression treats a letter and its lower
    case alike. *)
Fixpoint classes_case_blind (r : regex) : bool :=
  match r with
  | Void | Eps => true
  | Class p => forallb (fun c => Bool.eqb (p (to_lower c)) (p c)) all_ascii
  | Cat r1 r2 | Alt r1 r2 => classes_case_blind r1 && classes_case_blind r2
  | Star r1 => classes_case_blind r1
  end.

(** Further sample worlds: a counter that was set below zero, a store
    that cannot be reached for the fourth call, and one that loses the
    reply to the second call after applying it. *)
Definition world_neg : World := mkWorld {[ COUNTER_KEY := "-5" ]} [] [].
Definition world_flaky : World :=
  mkWorld ∅ [None; None; None; Some (mkFault ConnectionFailed false);
             Some (mkFault StoreTimeout false)] [].
Definition world_lossy : World :=
  mkWorld ∅ [None; Some (mkFault StoreTimeout true)] [].


(* ====================================================================== *)
(** ** Strings *)
(* ====================================================================== *)

(** Equations of string append, which is kept folded. *)
Lemma app_cons_str c s t : (String c s +:+ t) = String c (s +:+ t).
Proof. reflexivity. Qed.

Lemma app_nil_str_l t : ("" +:+ t) = t.
Proof. reflexivity. Qed.

Lemma app_nil_str_r s : (s +:+ "") = s.
Proof. induction s as [|c s IH]; [reflexivity|]. rewrite app_cons_str, IH. reflexivity. Qed.

Lemma app_assoc_str s t u : ((s +:+ t) +:+ u) = (s +:+ (t +:+ u)).
Proof.
  induction s as [|c s IH]; [reflexivity|].
  rewrite !app_cons_str, IH. reflexivity.
Qed.

Lemma length_app_str s t :
  String.length (s +:+ t) = (String.length s + String.length t)%nat.
Proof.
  induction s as [|c s IH]; [reflexivity|].
  rewrite app_cons_str. simpl. rewrite IH. reflexivity.
Qed.

(** Joining with the empty separator is concatenation. *)
Lemma str_join_cons x l : str_join "" (x :: l) = (x +:+ str_join "" l).
Proof.
  unfold str_join. destruct l as [|y l]; simpl.
  - rewrite app_nil_str_r. reflexivity.
  - reflexivity.
Qed.

Lemma str_join_app l1 l2 :
  str_join "" (l1 ++ l2) = (str_join "" l1 +:+ str_join "" l2).
Proof.
  induction l1 as [|x l1 IH].
  - reflexivity.
  - rewrite <- app_comm_cons, !str_join_cons, IH, app_assoc_str. reflexivity.
Qed.

(** Comparison of strings, character by character. *)
Lemma ascii_compare_refl c : Ascii.compare c c = Eq.
Proof. unfold Ascii.compare. apply N.compare_refl. Qed.

Lemma string_compare_refl s : String.compare s s = Eq.
Proof. induction s as [|c s IH]; simpl; [|rewrite ascii_compare_refl]; auto. Qed.

Lemma compare_app_str s1 : forall s2 t1 t2,
  String.length s1 = String.length s2 ->
  String.compare (s1 +:+ t1) (s2 +:+ t2) =
  match String.compare s1 s2 with Eq => String.compare t1 t2 | o => o end.
Proof.
  induction s1 as [|c1 s1 IH]; intros [|c2 s2] t1 t2 Hl; try discriminate.
  - reflexivity.
  - rewrite !app_cons_str. simpl.
    destruct (Ascii.compare c1 c2); try reflexivity.
    apply IH. simpl in Hl. congruence.
Qed.

Lemma comparison_eqb_eq a b : comparison_eqb a b = true -> a = b.
Proof. destruct a, b; simpl; congruence. Qed.

(* ====================================================================== *)
(** ** The loop of the encoder *)
(* ====================================================================== *)

(** Strong induction over the non-negative integers. *)
Lemma Z_nonneg_strong_ind (P : Z -> Prop) :
  (forall x, 0 <= x -> (forall y, 0 <= y < x -> P y) -> P x) ->
  forall x, 0 <= x -> P x.
Proof.
  intros H x Hx.
  assert (G : 0 <= x -> P x); [|exact (G Hx)].
  pattern x. apply Z_lt_induction; [|exact Hx].
  intros z IH Hz. apply H; [exact Hz|]. intros y Hy. apply IH; lia.
Qed.

Lemma div62_lt n : 0 < n -> 0 <= n / 62 < n.
Proof. intros H. split; [apply Z.div_pos; lia | apply Z.div_lt; lia]. Qed.

Lemma mod62_range n : 0 <= n mod 62 < 62.
Proof. apply Z.mod_pos_bound. lia. Qed.

(** One turn of the loop, and its exit. *)
Lemma encode_loop_pos n r :
  0 < n -> encode_loop n r = encode_loop (n / 62) (r ++ [BASE62_CHARS_at (n mod 62)]).
Proof.
  intros H. rewrite encode_loop_equation_1.
  destruct (Z_gt_dec n 0); [apply encode_loop_clause_1_equation_1 | lia].
Qed.

Lemma encode_loop_nonpos n r : n <= 0 -> encode_loop n r = r.
Proof.
  intros H. rewrite encode_loop_equation_1.
  destruct (Z_gt_dec n 0); [lia | reflexivity].
Qed.

(** The loop only appends to what it was given. *)
Lemma encode_loop_acc n : 0 <= n -> forall r, encode_loop n r = r ++ encode_loop n [].
Proof.
  intros Hn. pattern n. apply Z_lt_induction; [|exact Hn]. clear n Hn.
  intros n IH r. destruct (Z_gt_dec n 0) as [Hp|Hp].
  - rewrite (encode_loop_pos n r), (encode_loop_pos n []) by lia.
    pose proof (div62_lt n ltac:(lia)).
    rewrite (IH (n / 62) ltac:(lia) (r ++ _)), (IH (n / 62) ltac:(lia) ([] ++ _)).
    simpl. rewrite <- app_assoc. reflexivity.
  - rewrite !encode_loop_nonpos by lia. rewrite app_nil_r. reflexivity.
Qed.

(** The digits of a positive number: those of the quotient, then the last one. *)
Lemma enc_nonpos n : n <= 0 -> enc n = "".
Proof. intros H. unfold enc. rewrite encode_loop_nonpos by lia. reflexivity. Qed.

Lemma enc_pos n :
  0 < n -> enc n = (enc (n / 62) +:+ BASE62_CHARS_at (n mod 62)).
Proof.
  intros H. unfold enc. rewrite encode_loop_pos by lia.
  pose proof (div62_lt n H).
  rewrite encode_loop_acc by lia. simpl.
  rewrite str_join_app. reflexivity.
Qed.

Lemma encode_base62_pos n : 0 < n -> encode_base62 n = enc n.
Proof.
  intros H. unfold encode_base62, enc.
  destruct (Z.eqb_spec n 0); [lia | reflexivity].
Qed.

(* ====================================================================== *)
(** ** The alphabet *)
(* ====================================================================== *)

(** A property of every position follows from checking the 62 of them. *)
Lemma range62 (P : Z -> Prop) :
  (forall k, In k (seq 0 62) -> P (Z.of_nat k)) -> forall d, 0 <= d < 62 -> P d.
Proof.
  intros H d Hd. rewrite <- (Z2Nat.id d) by lia. apply H.
  apply in_seq. lia.
Qed.

Lemma digit_ok_all : forallb digit_ok (seq 0 62) = true.
Proof. vm_compute. reflexivity. Qed.

Lemma order_ok_all :
  forallb (fun a => forallb (order_ok a) (seq 0 62)) (seq 0 62) = true.
Proof. vm_compute. reflexivity. Qed.

(** Indexing the alphabet in range gives one character, found back at the same position. *)
Lemma BASE62_CHARS_at_digit d :
  0 <= d < 62 ->
  exists c, BASE62_CHARS_at d = String c EmptyString /\ str_find c BASE62_CHARS = Some d.
Proof.
  revert d. apply range62. intros k Hk.
  pose proof (proj1 (forallb_forall _ _) digit_ok_all k Hk) as H.
  unfold digit_ok in H.
  destruct (BASE62_CHARS_at (Z.of_nat k)) as [|c [|c' s]]; try discriminate.
  destruct (str_find c BASE62_CHARS) as [d|] eqn:E; try discriminate.
  apply Z.eqb_eq in H. subst d. exists c. split; [reflexivity | exact E].
Qed.

(** The alphabet is listed in increasing character order. *)
Lemma BASE62_CHARS_at_compare a b :
  0 <= a < 62 -> 0 <= b < 62 ->
  String.compare (BASE62_CHARS_at a) (BASE62_CHARS_at b) = (a ?= b).
Proof.
  intros Ha. revert b. pattern a. revert a Ha. apply range62. intros i Hi.
  apply range62. intros j Hj.
  pose proof (proj1 (forallb_forall _ _) order_ok_all i Hi) as H.
  pose proof (proj1 (forallb_forall _ _) H j Hj) as H'.
  apply comparison_eqb_eq in H'. exact H'.
Qed.

(* ====================================================================== *)
(** ** Length and order of the encoding *)
(* ====================================================================== *)

(** Every non-negative number, zero included, encodes as the digits of its quotient followed by its last digit. *)
Lemma encode_base62_decomp n :
  0 <= n -> encode_base62 n = enc (n / 62) +:+ BASE62_CHARS_at (n mod 62).
Proof.
  intros H. destruct (Z.eq_dec n 0) as [->|Hn].
  - reflexivity.
  - rewrite encode_base62_pos by lia. apply enc_pos. lia.
Qed.

(** Length. *)
Lemma enc_length_pos n : 0 < n -> String.length (enc n) = S (String.length (enc (n / 62))).
Proof.
  intros H. rewrite enc_pos by lia. rewrite length_app_str.
  destruct (BASE62_CHARS_at_digit (n mod 62) (mod62_range n)) as (c & -> & _).
  simpl. lia.
Qed.

Lemma enc_length_mono n :
  0 <= n -> forall m, 0 <= m <= n -> (String.length (enc m) <= String.length (enc n))%nat.
Proof.
  intros Hn. pattern n. apply Z_nonneg_strong_ind; [|exact Hn]. clear n Hn.
  intros n Hn IH m Hm. destruct (Z.eq_dec m 0) as [->|Hm0].
  - rewrite (enc_nonpos 0) by lia. simpl. lia.
  - rewrite (enc_length_pos m), (enc_length_pos n) by lia.
    pose proof (div62_lt n ltac:(lia)). pose proof (div62_lt m ltac:(lia)).
    assert (m / 62 <= n / 62) by (apply Z.div_le_mono; lia).
    specialize (IH (n / 62) ltac:(lia) (m / 62) ltac:(lia)). lia.
Qed.

Lemma encode_base62_length n :
  0 <= n -> String.length (encode_base62 n) = S (String.length (enc (n / 62))).
Proof.
  intros H. rewrite encode_base62_decomp by lia. rewrite length_app_str.
  destruct (BASE62_CHARS_at_digit (n mod 62) (mod62_range n)) as (c & -> & _).
  simpl. lia.
Qed.

Lemma encode_base62_nonempty n : 0 <= n -> encode_base62 n <> "".
Proof.
  intros Hn E. pose proof (encode_base62_length n Hn) as L.
  rewrite E in L. discriminate.
Qed.

(** Order. *)
Lemma compare_divmod m n :
  0 <= m -> 0 <= n ->
  (m ?= n) = match m / 62 ?= n / 62 with Eq => m mod 62 ?= n mod 62 | o => o end.
Proof.
  intros Hm Hn.
  pose proof (Z.div_mod m 62 ltac:(lia)). pose proof (Z.div_mod n 62 ltac:(lia)).
  pose proof (mod62_range m). pose proof (mod62_range n).
  destruct (Z.compare_spec (m / 62) (n / 62)).
  - destruct (Z.compare_spec (m mod 62) (n mod 62));
      [apply Z.compare_eq_iff | apply Z.compare_lt_iff | apply Z.compare_gt_iff]; lia.
  - apply Z.compare_lt_iff; lia.
  - apply Z.compare_gt_iff; lia.
Qed.

Lemma enc_compare m :
  0 <= m -> forall n, 0 <= n ->
  String.length (enc m) = String.length (enc n) ->
  String.compare (enc m) (enc n) = (m ?= n).
Proof.
  intros Hm. pattern m. apply Z_nonneg_strong_ind; [|exact Hm]. clear m Hm.
  intros m Hm IH n Hn Hl.
  destruct (Z.eq_dec m 0) as [->|Hm0]; destruct (Z.eq_dec n 0) as [->|Hn0].
  - reflexivity.
  - rewrite (enc_nonpos 0), (enc_length_pos n) in Hl by lia. discriminate.
  - rewrite (enc_nonpos 0), (enc_length_pos m) in Hl by lia. discriminate.
  - rewrite (enc_length_pos m), (enc_length_pos n) in Hl by lia.
    injection Hl as Hl.
    pose proof (div62_lt n ltac:(lia)). pose proof (div62_lt m ltac:(lia)).
    rewrite (enc_pos m), (enc_pos n) by lia.
    rewrite compare_app_str by exact Hl.
    rewrite (IH (m / 62) ltac:(lia) (n / 62) ltac:(lia) Hl).
    rewrite BASE62_CHARS_at_compare by apply mod62_range.
    symmetry. apply compare_divmod; lia.
Qed.

Lemma encode_base62_compare m n :
  0 <= m -> 0 <= n ->
  String.length (encode_base62 m) = String.length (encode_base62 n) ->
  String.compare (encode_base62 m) (encode_base62 n) = (m ?= n).
Proof.
  intros Hm Hn Hl.
  rewrite !encode_base62_length in Hl by lia. injection Hl as Hl.
  rewrite (encode_base62_decomp m), (encode_base62_decomp n) by lia.
  rewrite compare_app_str by exact Hl.
  rewrite enc_compare by (try apply Z.div_pos; lia || exact Hl).
  rewrite BASE62_CHARS_at_compare by apply mod62_range.
  symmetry. apply compare_divmod; lia.
Qed.

Lemma encode_base62_inj m n :
  0 <= m -> 0 <= n -> encode_base62 m = encode_base62 n -> m = n.
Proof.
  intros Hm Hn E. apply Z.compare_eq.
  rewrite <- encode_base62_compare by (lia || now rewrite E).
  rewrite E. apply string_compare_refl.
Qed.

(** The first digit of a positive number is not the zero digit. *)
Lemma enc_leading n :
  0 < n -> exists c rest, enc n = String c rest /\ c <> "0"%char.
Proof.
  intros Hn. assert (H0 : 0 <= n) by lia. revert Hn. pattern n.
  apply Z_nonneg_strong_ind; [|exact H0]. clear n H0.
  intros n _ IH Hn. rewrite enc_pos by lia.
  pose proof (div62_lt n Hn) as Hq.
  destruct (Z.eq_dec (n / 62) 0) as [E|E].
  - rewrite E, (enc_nonpos 0), app_nil_str_l by lia.
    pose proof (Z.div_mod n 62 ltac:(lia)) as Hdm.
    destruct (BASE62_CHARS_at_digit (n mod 62) (mod62_range n)) as (c & -> & Hc).
    exists c, EmptyString. split; [reflexivity|]. intros ->.
    change (str_find "0"%char BASE62_CHARS) with (Some 0) in Hc.
    injection Hc as Hc. lia.
  - destruct (IH (n / 62) ltac:(lia) ltac:(lia)) as (c & rest & -> & Hc).
    rewrite app_cons_str. eauto.
Qed.

(* ====================================================================== *)
(** ** Decoding *)
(* ====================================================================== *)

(** The decoder reads digit by digit. *)
Lemma decode_loop_cons c s acc :
  decode_loop (String c s) acc =
  match str_find c BASE62_CHARS with
  | None => inl InvalidSlug
  | Some d => decode_loop s (acc * 62 + d)
  end.
Proof. reflexivity. Qed.

Lemma decode_loop_app s1 : forall s2 acc,
  decode_loop (s1 +:+ s2) acc =
  match decode_loop s1 acc with inl e => inl e | inr a => decode_loop s2 a end.
Proof.
  induction s1 as [|c s1 IH]; intros s2 acc.
  - reflexivity.
  - rewrite app_cons_str, !decode_loop_cons.
    destruct (str_find c BASE62_CHARS); [apply IH | reflexivity].
Qed.

Lemma decode_loop_digit d acc :
  0 <= d < 62 -> decode_loop (BASE62_CHARS_at d) acc = inr (acc * 62 + d).
Proof.
  intros Hd. destruct (BASE62_CHARS_at_digit d Hd) as (c & -> & Hc).
  rewrite decode_loop_cons, Hc. reflexivity.
Qed.

Lemma decode_loop_enc n : 0 <= n -> decode_loop (enc n) 0 = inr n.
Proof.
  intros Hn. pattern n. apply Z_nonneg_strong_ind; [|exact Hn]. clear n Hn.
  intros n Hn IH. destruct (Z.eq_dec n 0) as [->|Hn0].
  - reflexivity.
  - pose proof (div62_lt n ltac:(lia)).
    rewrite enc_pos, decode_loop_app, IH by lia.
    rewrite decode_loop_digit by apply mod62_range.
    f_equal. pose proof (Z.div_mod n 62 ltac:(lia)). lia.
Qed.

Lemma decode_encode_base62 n : 0 <= n -> decode_base62 (encode_base62 n) = inr n.
Proof.
  intros Hn. rewrite encode_base62_decomp by lia.
  pose proof (Z.div_pos n 62 Hn ltac:(lia)) as Hq.
  assert (E : decode_loop (enc (n / 62) +:+ BASE62_CHARS_at (n mod 62)) 0 = inr n).
  { rewrite decode_loop_app, decode_loop_enc by lia.
    rewrite decode_loop_digit by apply mod62_range.
    f_equal. pose proof (Z.div_mod n 62 ltac:(lia)). lia. }
  destruct (BASE62_CHARS_at_digit (n mod 62) (mod62_range n)) as (c & Hc & _).
  rewrite Hc in *.
  destruct (enc (n / 62)) as [|c0 s0]; exact E.
Qed.

(* ====================================================================== *)
(** ** Store calls *)
(* ====================================================================== *)

(** What each call returns and leaves behind. *)
Lemma attempts_spec {A}
    (apply : gmap string string -> StoreError + (A * gmap string string))
    m script res m' rest :
  attempts REST_RETRIES apply m script = (res, m', rest) ->
  exists m0,
    (m0 = m \/ exists a, apply m = inr (a, m0)) /\
    match res with
    | Return a => apply m0 = inr (a, m')
    | Raise e => m' = m0 \/ exists a, apply m0 = inr (a, m')
    end.
Proof.
  unfold REST_RETRIES. cbn [attempts].
  assert (L : forall f m1, lost_attempt apply f m1 = m1 \/
                           exists a, apply m1 = inr (a, lost_attempt apply f m1)).
  { intros f m1. unfold lost_attempt. destruct (fault_applied f); [|auto].
    destruct (apply m1) as [e|[a m2]]; eauto. }
  assert (R : forall m1 sc,
            match apply m1 with
            | inr (a, m2) => (Return a, m2, tl sc)
            | inl e => (Raise e, m1, tl sc)
            end = (res, m', rest) ->
            match res with
            | Return a => apply m1 = inr (a, m')
            | Raise e => m' = m1 \/ exists a, apply m1 = inr (a, m')
            end).
  { intros m1 sc. destruct (apply m1) as [e|[a m2]]; intros [= <- <- _]; auto. }
  destruct (hd None script) as [f1|].
  - destruct (hd None (tl script)) as [f2|].
    + intros [= <- <- _]. exists (lost_attempt apply f1 m).
      split; [destruct (L f1 m) as [-> | H]; auto|].
      destruct (L f2 (lost_attempt apply f1 m)) as [-> | H]; auto.
    + intros H. exists (lost_attempt apply f1 m).
      split; [destruct (L f1 m) as [-> | H']; auto|].
      exact (R _ _ H).
  - intros H. exists m. split; [auto|]. exact (R _ _ H).
Qed.

Lemma store_call_spec {A} op
    (apply : gmap string string -> StoreError + (A * gmap string string)) w :
  exists res m' rest,
    attempts REST_RETRIES apply (kv w) (net w) = (res, m', rest) /\
    store_call op apply w =
      (res, mkWorld m' rest (calls w ++ [(op, outcome_error res)])).
Proof.
  unfold store_call.
  destruct (attempts REST_RETRIES apply (kv w) (net w)) as [[res m'] rest].
  eauto.
Qed.

Lemma redis_get_cases key w :
  (exists e rest, redis_get key w =
     (Raise e, mkWorld (kv w) rest (calls w ++ [failed (GET key) e]))) \/
  (exists rest, redis_get key w =
     (Return (kv w !! key), mkWorld (kv w) rest (calls w ++ [ok (GET key)]))).
Proof.
  unfold redis_get.
  destruct (store_call_spec (GET key) (fun m => inr (m !! key, m)) w)
    as (res & m' & rest & Ha & ->).
  destruct (attempts_spec _ _ _ _ _ _ Ha) as (m0 & H0 & H).
  assert (m0 = kv w) as -> by (destruct H0 as [-> | (a & [= _ <-])]; reflexivity).
  destruct res as [a|e].
  - injection H as <- <-. right. eauto.
  - assert (m' = kv w) as -> by (destruct H as [-> | (a & [= _ <-])]; reflexivity).
    left. eauto.
Qed.

Lemma redis_set_cases key value w :
  (exists e m' rest, (m' = kv w \/ m' = <[key := value]> (kv w)) /\
     redis_set key value w =
     (Raise e, mkWorld m' rest (calls w ++ [failed (SET key value) e]))) \/
  (exists rest, redis_set key value w =
     (Return tt, mkWorld (<[key := value]> (kv w)) rest
                   (calls w ++ [ok (SET key value)]))).
Proof.
  unfold redis_set.
  destruct (store_call_spec (SET key value)
              (fun m => inr (tt, <[key := value]> m)) w)
    as (res & m' & rest & Ha & ->).
  destruct (attempts_spec _ _ _ _ _ _ Ha) as (m0 & H0 & H).
  assert (E : <[key := value]> m0 = <[key := value]> (kv w)).
  { destruct H0 as [-> | (a & [= _ <-])]; [reflexivity|].
    apply insert_insert_eq. }
  destruct res as [[]|e].
  - injection H as <-. rewrite E. right. eauto.
  - left. exists e, m', rest. split; [|reflexivity].
    destruct H as [-> | (a & [= _ <-])].
    + destruct H0 as [-> | (a & [= _ <-])]; auto.
    + rewrite E. auto.
Qed.

Lemma redis_incr_cases w :
  (exists e m' rest,
     (m' = kv w \/ exists c, incr_applied (kv w) c m') /\
     redis_incr COUNTER_KEY w =
     (Raise e, mkWorld m' rest (calls w ++ [failed (INCR COUNTER_KEY) e]))) \/
  (exists c m' rest, incr_applied (kv w) c m' /\
     redis_incr COUNTER_KEY w =
     (Return c, mkWorld m' rest (calls w ++ [ok (INCR COUNTER_KEY)]))).
Proof.
  unfold redis_incr.
  destruct (store_call_spec (INCR COUNTER_KEY) (incr_apply COUNTER_KEY) w)
    as (res & m' & rest & Ha & ->).
  destruct (attempts_spec _ _ _ _ _ _ Ha) as (m0 & H0 & H).
  destruct res as [c|e].
  - right. exists c, m', rest. split; [|reflexivity].
    destruct H0 as [-> | (c0 & H0)]; [left; exact H|].
    right. eauto.
  - left. exists e, m', rest. split; [|reflexivity].
    destruct H as [-> | (c & H)].
    + destruct H0 as [-> | (c0 & H0)]; [auto|].
      right. exists c0. left. exact H0.
    + right. exists c. destruct H0 as [-> | (c0 & H0)]; [left; exact H|].
      right. eauto.
Qed.

Lemma truthy_spec v : truthy v = true <-> exists s, v = Some s /\ s <> "".
Proof.
  destruct v as [s|]; simpl.
  - destruct (String.eqb_spec s ""); simpl; split.
    + discriminate.
    + intros (s' & [= <-] & H). contradiction.
    + eauto.
    + reflexivity.
  - split; [discriminate | intros (s & [=] & _)].
Qed.

(** Decimal form of the counter. *)
Lemma parse_print_int z :
  INT64_MIN <= z <= INT64_MAX -> parse_int (print_int z) = Some z.
Proof.
  intros Hz. unfold parse_int, print_int.
  rewrite NilEmpty.isi, DecimalZ.of_to, String.eqb_refl.
  destruct (Z.leb_spec INT64_MIN z); [|lia].
  destruct (Z.leb_spec z INT64_MAX); [|lia]. reflexivity.
Qed.

Lemma parse_int_range s z : parse_int s = Some z -> INT64_MIN <= z <= INT64_MAX.
Proof.
  unfold parse_int. destruct (NilEmpty.int_of_string s) as [d|]; [|discriminate].
  cbv zeta.
  destruct (String.eqb _ s); simpl; [|discriminate].
  destruct (Z.leb_spec INT64_MIN (Z.of_int d)); simpl; [|discriminate].
  destruct (Z.leb_spec (Z.of_int d) INT64_MAX); simpl; [|discriminate].
  intros [= <-]. lia.
Qed.

(* ====================================================================== *)
(** ** Keys *)
(* ====================================================================== *)

(** The three families of keys are pairwise disjoint, and a key determines its URL or slug. *)
Lemma slug_key_ne_url_key s u : slug_key s <> url_key u.
Proof. unfold slug_key, url_key. cbv [String.append]. discriminate. Qed.

Lemma slug_key_ne_counter s : slug_key s <> COUNTER_KEY.
Proof. unfold slug_key, COUNTER_KEY. cbv [String.append]. discriminate. Qed.

Lemma url_key_ne_counter u : url_key u <> COUNTER_KEY.
Proof. unfold url_key, COUNTER_KEY. cbv [String.append]. discriminate. Qed.

Lemma url_key_inj u1 u2 : url_key u1 = url_key u2 -> u1 = u2.
Proof. unfold url_key. apply String.app_inj. Qed.

Lemma slug_key_inj s1 s2 : slug_key s1 = slug_key s2 -> s1 = s2.
Proof. unfold slug_key. apply String.app_inj. Qed.

(** Two keys differ: they belong to different families, or to the same
    family with different contents. *)
Ltac other_key :=
  solve [ apply slug_key_ne_url_key | apply slug_key_ne_counter
        | apply url_key_ne_counter
        | apply not_eq_sym;
          first [ apply slug_key_ne_url_key | apply slug_key_ne_counter
                | apply url_key_ne_counter ]
        | let E := fresh in intros E; apply url_key_inj in E; congruence
        | let E := fresh in intros E; apply slug_key_inj in E; congruence ].

(* ====================================================================== *)
(** ** Runs of a request *)
(* ====================================================================== *)

(** The handler, with the code after the early return named. *)
Lemma shorten_url_unfold rq w :
  shorten_url rq w =
  (existing_slug <- redis_get (url_key (str_of_url (url rq))) ;;
   match existing_slug with
   | Some s => if negb (String.eqb s "") then ret (response s (str_of_url (url rq)))
               else mint (str_of_url (url rq))
   | None => mint (str_of_url (url rq))
   end) w.
Proof.
  unfold shorten_url, bind.
  destruct (redis_get _ w) as [[[s|]|e] w1]; reflexivity.
Qed.

(** Every run of a request has one of the six shapes. *)
Lemma mint_run u w :
  truthy (kv w !! url_key u) = false ->
  forall w0, kv w0 = kv w -> calls w0 = calls w ++ [ok (GET (url_key u))] ->
  shorten_run u w (mint u w0).1 (mint u w0).2.
Proof.
  intros Hmiss w0 Hkv Hcalls. unfold mint, get_next_counter, bind, ret.
  destruct (redis_incr_cases w0)
    as [(e & m' & rest & Hm & ->) | (c & m1 & rest & Hc & ->)].
  { simpl. apply run_incr_failed; simpl; rewrite ?Hcalls, <- ?app_assoc; auto.
    rewrite <- Hkv. exact Hm. }
  rewrite Hkv in Hc.
  match goal with |- context [redis_set ?k ?v ?w1] =>
    destruct (redis_set_cases k v w1)
      as [(e & m' & rest' & Hm & ->) | (rest' & ->)] end.
  { simpl. eapply run_forward_failed; simpl; rewrite ?Hcalls, <- ?app_assoc; eauto. }
  match goal with |- context [redis_set ?k ?v ?w1] =>
    destruct (redis_set_cases k v w1)
      as [(e & m' & rest'' & Hm & ->) | (rest'' & ->)] end.
  { simpl. eapply run_reverse_failed; simpl; rewrite ?Hcalls, <- ?app_assoc; eauto. }
  simpl. eapply run_minted; simpl; rewrite ?Hcalls, <- ?app_assoc; eauto.
Qed.

Lemma shorten_url_run rq w :
  shorten_run (str_of_url (url rq)) w (shorten_url rq w).1 (shorten_url rq w).2.
Proof.
  rewrite shorten_url_unfold. set (u := str_of_url (url rq)). unfold bind.
  destruct (redis_get_cases (url_key u) w) as [(e & rest & ->) | (rest & ->)].
  { simpl. apply run_lookup_failed; reflexivity. }
  destruct (kv w !! url_key u) as [s|] eqn:E.
  - destruct (String.eqb_spec s "") as [->|Hs]; simpl negb; cbv iota.
    + apply mint_run; simpl; auto. rewrite E. reflexivity.
    + simpl. apply run_existing; auto.
  - apply mint_run; simpl; auto. rewrite E. reflexivity.
Qed.

(* ====================================================================== *)
(** ** The store invariant *)
(* ====================================================================== *)

(** The invariant holds initially and is kept by every write the program makes. *)
Lemma store_inv_empty : store_inv ∅.
Proof.
  split.
  - unfold counter_ok. rewrite lookup_empty. exact I.
  - intros u s. rewrite lookup_empty. discriminate.
Qed.

Lemma incr_apply_inv m c m1 :
  store_inv m -> incr_apply COUNTER_KEY m = inr (c, m1) ->
  1 <= c <= INT64_MAX /\ m1 = <[COUNTER_KEY := print_int c]> m /\ store_inv m1.
Proof.
  intros [Hc Hr] H. unfold incr_apply in H. unfold counter_ok in Hc.
  assert (G : forall c', 1 <= c' <= INT64_MAX ->
            store_inv (<[COUNTER_KEY := print_int c']> m)).
  { intros c' Hc'. split.
    - unfold counter_ok. rewrite lookup_insert_eq. exists c'.
      split; [apply parse_print_int; unfold INT64_MIN; lia | lia].
    - intros u s. rewrite lookup_insert_ne by other_key.
      apply Hr. }
  destruct (m !! COUNTER_KEY) as [s|].
  - destruct Hc as (z & Hz & Hz0). rewrite Hz in H.
    pose proof (parse_int_range s z Hz).
    destruct (Z.ltb_spec z INT64_MAX); [|discriminate].
    injection H as <- <-. split; [lia|]. split; [reflexivity|]. apply G. lia.
  - injection H as <- <-. split; [unfold INT64_MAX; lia|]. split; [reflexivity|].
    apply G. unfold INT64_MAX. lia.
Qed.

(** The counter as a number. *)
Lemma counter_value_insert_other k v m :
  k <> COUNTER_KEY -> counter_value (<[k := v]> m) = counter_value m.
Proof. intros H. unfold counter_value. rewrite lookup_insert_ne by exact H. reflexivity. Qed.

Lemma counter_value_insert_counter c m :
  INT64_MIN <= c <= INT64_MAX ->
  counter_value (<[COUNTER_KEY := print_int c]> m) = c.
Proof.
  intros H. unfold counter_value.
  rewrite lookup_insert_eq, parse_print_int by exact H. reflexivity.
Qed.

(** A successful increment: the value returned, and the store afterwards. *)
Lemma incr_apply_value m c m1 :
  incr_apply COUNTER_KEY m = inr (c, m1) ->
  c = counter_value m + 1 /\ INT64_MIN < c <= INT64_MAX /\
  m1 = <[COUNTER_KEY := print_int c]> m /\ counter_value m1 = c.
Proof.
  unfold incr_apply, counter_value. intros H.
  destruct (m !! COUNTER_KEY) as [s|].
  - destruct (parse_int s) as [z|] eqn:Hz; [|discriminate].
    pose proof (parse_int_range s z Hz).
    destruct (Z.ltb_spec z INT64_MAX); [|discriminate].
    injection H as <- <-. split; [reflexivity|]. split; [lia|].
    split; [reflexivity|].
    rewrite lookup_insert_eq, parse_print_int by lia. reflexivity.
  - injection H as <- <-. split; [reflexivity|].
    split; [unfold INT64_MIN, INT64_MAX; lia|]. split; [reflexivity|].
    rewrite lookup_insert_eq. reflexivity.
Qed.

(** The same for an increment call, applied once or twice. *)
Lemma incr_applied_value m c m1 :
  incr_applied m c m1 ->
  counter_value m < c <= counter_value m + 2 /\
  INT64_MIN < c <= INT64_MAX /\
  m1 = <[COUNTER_KEY := print_int c]> m /\ counter_value m1 = c.
Proof.
  intros [H | (c0 & m0 & H0 & H)].
  - destruct (incr_apply_value _ _ _ H) as (-> & Hr & Hm & Hv).
    split; [lia | auto].
  - destruct (incr_apply_value _ _ _ H0) as (-> & Hr0 & Hm0 & Hv0).
    destruct (incr_apply_value _ _ _ H) as (-> & Hr & Hm & Hv).
    rewrite Hv0 in *. split; [lia|]. split; [lia|]. split; [|exact Hv].
    rewrite Hm, Hm0. apply insert_insert_eq.
Qed.

Lemma incr_applied_inv m c m1 :
  store_inv m -> incr_applied m c m1 ->
  1 <= c <= INT64_MAX /\ m1 = <[COUNTER_KEY := print_int c]> m /\ store_inv m1.
Proof.
  intros Hinv [H | (c0 & m0 & H0 & H)].
  - exact (incr_apply_inv _ _ _ Hinv H).
  - destruct (incr_apply_inv _ _ _ Hinv H0) as (_ & Hm0 & Hinv0).
    destruct (incr_apply_inv _ _ _ Hinv0 H) as (Hc & Hm & Hinv1).
    split; [exact Hc|]. split; [|exact Hinv1].
    rewrite Hm, Hm0. apply insert_insert_eq.
Qed.

Lemma store_inv_insert_slug m s u :
  store_inv m -> store_inv (<[slug_key s := u]> m).
Proof.
  intros [Hc Hr]. split.
  - unfold counter_ok. rewrite lookup_insert_ne by other_key. exact Hc.
  - intros u' s'. rewrite lookup_insert_ne by other_key. apply Hr.
Qed.

Lemma store_inv_insert_url m s u :
  store_inv m -> s <> "" -> store_inv (<[url_key u := s]> m).
Proof.
  intros [Hc Hr] Hs. split.
  - unfold counter_ok. rewrite lookup_insert_ne by other_key. exact Hc.
  - intros u' s'. destruct (decide (url_key u = url_key u')) as [E|E].
    + rewrite E, lookup_insert_eq. intros [= <-]. exact Hs.
    + rewrite lookup_insert_ne by exact E. apply Hr.
Qed.

Lemma shorten_url_preserves_inv rq w :
  store_inv (kv w) -> store_inv (kv (shorten_url rq w).2).
Proof.
  intros Hinv.
  destruct (shorten_url_run rq w) as
    [e w' Hk _ | s w' _ _ Hk _ | e w' _ Hk _ | e c m1 w' _ Hc Hk _
    | e c m1 w' _ Hc Hk _ | c m1 w' _ Hc Hk _].
  - rewrite Hk. exact Hinv.
  - rewrite Hk. exact Hinv.
  - destruct Hk as [-> | (c & Hc)]; [exact Hinv|].
    apply (incr_applied_inv _ _ _ Hinv Hc).
  - destruct (incr_applied_inv _ _ _ Hinv Hc) as (_ & _ & H1).
    destruct Hk as [-> | ->]; [exact H1 | apply store_inv_insert_slug, H1].
  - destruct (incr_applied_inv _ _ _ Hinv Hc) as (Hc1 & _ & H1).
    destruct Hk as [-> | ->]; [apply store_inv_insert_slug, H1|].
    apply store_inv_insert_url; [apply store_inv_insert_slug, H1|].
    apply encode_base62_nonempty. lia.
  - destruct (incr_applied_inv _ _ _ Hinv Hc) as (Hc1 & _ & H1). rewrite Hk.
    apply store_inv_insert_url; [apply store_inv_insert_slug, H1|].
    apply encode_base62_nonempty. lia.
Qed.

(** Every world the service passes through satisfies the invariant. *)
Lemma reachable_store_inv w : reachable w -> store_inv (kv w).
Proof.
  induction 1 as [nt | rq w _ IH].
  - apply store_inv_empty.
  - apply shorten_url_preserves_inv, IH.
Qed.

(** A known URL is answered from the reverse mapping. *)
Lemma shorten_url_hit rq w s :
  kv w !! url_key (str_of_url (url rq)) = Some s -> s <> "" ->
  kv (shorten_url rq w).2 = kv w /\
  exists o, calls (shorten_url rq w).2 = calls w ++ [(GET (url_key (str_of_url (url rq))), o)] /\
    match o with
    | None => (shorten_url rq w).1 = Return (response s (str_of_url (url rq)))
    | Some e => (shorten_url rq w).1 = Raise e
    end.
Proof.
  intros Hs Hne.
  assert (Ht : truthy (kv w !! url_key (str_of_url (url rq))) = true).
  { apply truthy_spec. eauto. }
  destruct (shorten_url_run rq w) as
    [e w' Hk Hc | s' w' Hs' _ Hk Hc | e w' Hm _ _ | e c m1 w' Hm _ _ _
    | e c m1 w' Hm _ _ _ | c m1 w' Hm _ _ _]; try congruence.
  - split; [exact Hk|]. exists (Some e). split; [exact Hc | reflexivity].
  - split; [exact Hk|]. exists None. split; [exact Hc|]. congruence.
Qed.

(** After a request that returned, the reverse mapping holds the slug it returned. *)
Lemma shorten_url_return rq w r w' :
  store_inv (kv w) -> shorten_url rq w = (Return r, w') ->
  store_inv (kv w') /\ kv w' !! url_key (str_of_url (url rq)) = Some (slug r) /\
  slug r <> "".
Proof.
  intros Hinv H. pose proof (shorten_url_preserves_inv rq w Hinv) as Hinv'.
  pose proof (shorten_url_run rq w) as Hrun. rewrite H in *. simpl in *.
  split; [exact Hinv'|].
  inversion Hrun as [ | s w1 Hs Hne Hk _ | | | | c m1 w1 _ Hc Hk _]; subst.
  - simpl. rewrite Hk. auto.
  - simpl. rewrite Hk, lookup_insert_eq. split; [reflexivity|].
    destruct (incr_applied_inv _ _ _ Hinv Hc) as (Hc1 & _).
    apply encode_base62_nonempty. lia.
Qed.

(* ====================================================================== *)
(** ** Properties of the codec *)
(* ====================================================================== *)

(** C1. Decoding inverts encoding: for every non-negative integer [n]
    (so for every [n] in [0, 10_000_000]), [decode(encode(n)) = n]. *)
Theorem decode_encode_roundtrip (n : Z) :
  0 <= n -> decode_base62 (encode_base62 n) = inr n.
Proof. apply decode_encode_base62. Qed.

Lemma decode_encode_roundtrip_witness :
  0 <= 10000000 /\ decode_base62 (encode_base62 10000000) = inr 10000000.
Proof. split; [lia | apply (decode_encode_roundtrip 10000000); lia]. Defined.

(** C2, as the code has it. [encode(0) = "0"], [encode(61) = "z"],
    [encode(62) = "10"] and [encode(1000) = "G8"]: 1000 is 16 * 62 + 8 and
    position 16 of the alphabet, which lists upper case before lower case,
    is the capital letter. *)
Theorem encode_vectors :
  encode_base62 0 = "0" /\ encode_base62 61 = "z" /\
  encode_base62 62 = "10" /\ encode_base62 1000 = "G8".
Proof. repeat split; vm_compute; reflexivity. Qed.

(** C2, as stated, does not hold: the encoding of 1000 is not ["g8"]. *)
Lemma encode_vectors_docstring_fails :
  ~ (encode_base62 0 = "0" /\ encode_base62 61 = "z" /\
     encode_base62 62 = "10" /\ encode_base62 1000 = "g8").
Proof. intros (_ & _ & _ & H). vm_compute in H. discriminate. Qed.

(** C5. The length of the encoding does not decrease as the number grows:
    for non-negative [m < n], [len(encode(m)) <= len(encode(n))]; the
    encodings of 61 and 62 have lengths 1 and 2; and between encodings of
    the same length, the order of the strings (character by character, as
    Python compares them) is the order of the numbers. *)
Theorem encode_length_monotonic (m n : Z) :
  0 <= m -> 0 <= n ->
  (m < n ->
   (String.length (encode_base62 m) <= String.length (encode_base62 n))%nat) /\
  String.length (encode_base62 61) = 1%nat /\
  String.length (encode_base62 62) = 2%nat /\
  (String.length (encode_base62 m) = String.length (encode_base62 n) ->
   String.compare (encode_base62 m) (encode_base62 n) = (m ?= n)).
Proof.
  intros Hm Hn. split; [|split; [|split]].
  - intros Hlt. rewrite !encode_base62_length by lia.
    apply le_n_S, enc_length_mono.
    + apply Z.div_pos; lia.
    + split; [apply Z.div_pos; lia | apply Z.div_le_mono; lia].
  - vm_compute. reflexivity.
  - vm_compute. reflexivity.
  - apply encode_base62_compare; assumption.
Qed.

Lemma encode_length_monotonic_witness :
  (String.length (encode_base62 61) <= String.length (encode_base62 62))%nat /\
  String.compare (encode_base62 100) (encode_base62 3843) = Lt.
Proof.
  destruct (encode_length_monotonic 61 62 ltac:(lia) ltac:(lia)) as (H1 & _).
  destruct (encode_length_monotonic 100 3843 ltac:(lia) ltac:(lia))
    as (_ & _ & _ & H2).
  split; [apply H1; lia | apply H2; vm_compute; reflexivity].
Defined.

(** C6. [encode(0)] is the one-character string of the first alphabet
    character, not the empty string; and for every [n >= 0] an encoding
    that starts with that character is exactly that one character (and
    then [n] is 0): no leading zero digits. *)
Theorem encode_no_leading_zero (n : Z) :
  0 <= n ->
  String.get 0 BASE62_CHARS = Some "0"%char /\
  encode_base62 0 = String "0" EmptyString /\
  (forall rest,
     encode_base62 n = String "0" rest -> rest = EmptyString /\ n = 0).
Proof.
  intros Hn. split; [reflexivity|]. split; [reflexivity|].
  intros rest H. destruct (Z.eq_dec n 0) as [->|Hn0].
  - vm_compute in H. injection H as <-. split; reflexivity.
  - rewrite encode_base62_pos in H by lia.
    destruct (enc_leading n ltac:(lia)) as (c & r & E & Hc).
    rewrite E in H. injection H as -> _. contradiction.
Qed.

Lemma encode_no_leading_zero_witness :
  0 <= 3844 /\
  String.get 0 BASE62_CHARS = Some "0"%char /\
  encode_base62 0 = String "0" EmptyString /\
  (forall rest,
     encode_base62 3844 = String "0" rest -> rest = EmptyString /\ 3844 = 0).
Proof. split; [lia | apply (encode_no_leading_zero 3844); lia]. Defined.

(** C10. For every negative [n], [encode_base62(n)] is the empty string:
    the test [num == 0] fails, the loop body never runs, and the join of
    the empty list is returned; no error is raised. *)
Theorem encode_negative_empty (n : Z) :
  n < 0 ->
  (n =? 0) = false /\ encode_loop n [] = [] /\ encode_base62 n = "".
Proof.
  intros Hn. assert (E : (n =? 0) = false) by (apply Z.eqb_neq; lia).
  split; [exact E|]. split; [apply encode_loop_nonpos; lia|].
  unfold encode_base62. rewrite E, encode_loop_nonpos by lia. reflexivity.
Qed.

Lemma encode_negative_empty_witness :
  -7 < 0 /\
  (-7 =? 0) = false /\ encode_loop (-7) [] = [] /\ encode_base62 (-7) = "".
Proof. split; [lia | apply (encode_negative_empty (-7)); lia]. Defined.

(* ====================================================================== *)
(** ** Properties of the request path *)
(* ====================================================================== *)

(** C3. In a store that satisfies the invariant, a request for a URL that
    the reverse mapping knows issues exactly one store call, the lookup
    (so no increment and no write), leaves the store as it was, and, when
    the lookup goes through, returns the stored slug.  And when the same
    URL is shortened twice in a row, the second request returns the slug of
    the first, with one lookup and nothing else. *)
Theorem shorten_existing_url_idempotent (rq : ShortenRequest) (w : World) :
  store_inv (kv w) ->
  (forall s, kv w !! url_key (str_of_url (url rq)) = Some s ->
     kv (shorten_url rq w).2 = kv w /\
     exists o,
       calls (shorten_url rq w).2 =
         calls w ++ [(GET (url_key (str_of_url (url rq))), o)] /\
       match o with
       | None => (shorten_url rq w).1 = Return (response s (str_of_url (url rq)))
       | Some e => (shorten_url rq w).1 = Raise e
       end) /\
  (forall r1 w1 r2 w2,
     shorten_url rq w = (Return r1, w1) ->
     shorten_url rq w1 = (Return r2, w2) ->
     slug r2 = slug r1 /\ kv w2 = kv w1 /\
     calls w2 = calls w1 ++ [ok (GET (url_key (str_of_url (url rq))))]).
Proof.
  intros Hinv. split.
  - intros s Hs. apply shorten_url_hit; [exact Hs|]. exact (proj2 Hinv _ _ Hs).
  - intros r1 w1 r2 w2 H1 H2.
    destruct (shorten_url_return _ _ _ _ Hinv H1) as (_ & Hs & Hne).
    destruct (shorten_url_hit rq w1 _ Hs Hne) as (Hk & o & Hc & Ho).
    rewrite H2 in *. simpl in *.
    destruct o as [e|]; [discriminate|]. injection Ho as ->.
    auto.
Qed.

Lemma shorten_existing_url_idempotent_witness :
  store_inv (kv world_a) /\
  kv world_a !! url_key (str_of_url (url request_a)) = Some "1" /\
  kv (shorten_url request_a world_a).2 = kv world_a.
Proof.
  assert (Hinv : store_inv (kv world_a)).
  { apply shorten_url_preserves_inv, store_inv_empty. }
  assert (Hs : kv world_a !! url_key (str_of_url (url request_a)) = Some "1").
  { vm_compute. reflexivity. }
  split; [exact Hinv|]. split; [exact Hs|].
  destruct (shorten_existing_url_idempotent request_a world_a Hinv) as [H _].
  exact (proj1 (H "1" Hs)).
Defined.

(** C7. In a store that satisfies the invariant, when two distinct URLs,
    neither known to the reverse mapping, are shortened one after the
    other, the two slugs differ, and afterwards the forward mapping of each
    slug holds the URL it was minted for. *)
Theorem distinct_urls_get_distinct_slugs
    (rq1 rq2 : ShortenRequest) (w0 w1 w2 : World) (r1 r2 : ShortenResponse) :
  store_inv (kv w0) ->
  str_of_url (url rq1) <> str_of_url (url rq2) ->
  kv w0 !! url_key (str_of_url (url rq1)) = None ->
  kv w0 !! url_key (str_of_url (url rq2)) = None ->
  shorten_url rq1 w0 = (Return r1, w1) ->
  shorten_url rq2 w1 = (Return r2, w2) ->
  slug r1 <> slug r2 /\
  kv w2 !! slug_key (slug r1) = Some (str_of_url (url rq1)) /\
  kv w2 !! slug_key (slug r2) = Some (str_of_url (url rq2)).
Proof.
  set (u1 := str_of_url (url rq1)). set (u2 := str_of_url (url rq2)).
  intros Hinv Hne Hu1 Hu2 H1 H2.
  pose proof (shorten_url_run rq1 w0) as Hrun1. rewrite H1 in Hrun1.
  simpl in Hrun1. fold u1 in Hrun1.
  inversion Hrun1 as [ | s w' Hs _ _ _ | | | | c1 m1 w' _ Hc1 Hk1 _]; subst;
    [congruence|]. clear Hrun1.
  destruct (incr_applied_inv _ _ _ Hinv Hc1) as (Hr1 & Hm1 & Hinv1).
  assert (Hcnt : counter_value (kv w1) = c1).
  { rewrite Hk1, !counter_value_insert_other by other_key.
    apply (incr_applied_value _ _ _ Hc1). }
  assert (Hmiss2 : kv w1 !! url_key u2 = None).
  { rewrite Hk1, !lookup_insert_ne by other_key.
    rewrite Hm1, lookup_insert_ne by other_key. exact Hu2. }
  pose proof (shorten_url_run rq2 w1) as Hrun2. rewrite H2 in Hrun2.
  simpl in Hrun2. fold u2 in Hrun2.
  inversion Hrun2 as [ | s w' Hs _ _ _ Er | | | | c2 m2 w' _ Hc2 Hk2 _ Er];
    subst r2; [congruence|]. clear Hrun2.
  destruct (incr_applied_value _ _ _ Hc2) as (Hlt & _ & Hm2 & _).
  rewrite Hcnt in Hlt.
  assert (Hslug : encode_base62 c1 <> encode_base62 c2).
  { intros E. apply encode_base62_inj in E; lia. }
  simpl. split; [exact Hslug|]. split.
  - rewrite Hk2, !lookup_insert_ne by other_key.
    rewrite Hm2, lookup_insert_ne by other_key.
    rewrite Hk1, lookup_insert_ne by other_key.
    apply lookup_insert_eq.
  - rewrite Hk2, lookup_insert_ne by other_key.
    apply lookup_insert_eq.
Qed.

Lemma distinct_urls_get_distinct_slugs_witness :
  shorten_url request_a world0 =
    (Return (response "1" "https://a.example/"), world_a) /\
  shorten_url request_b world_a =
    (Return (response "2" "https://b.example/"), world_ab) /\
  "1" <> "2" /\
  kv world_ab !! slug_key "1" = Some "https://a.example/" /\
  kv world_ab !! slug_key "2" = Some "https://b.example/".
Proof.
  assert (H1 : shorten_url request_a world0 =
               (Return (response "1" "https://a.example/"), world_a)).
  { vm_compute. reflexivity. }
  assert (H2 : shorten_url request_b world_a =
               (Return (response "2" "https://b.example/"), world_ab)).
  { vm_compute. reflexivity. }
  split; [exact H1|]. split; [exact H2|].
  assert (Hne : str_of_url (url request_a) <> str_of_url (url request_b))
    by discriminate.
  exact (distinct_urls_get_distinct_slugs request_a request_b
           world0 world_a world_ab _ _ store_inv_empty Hne
           eq_refl eq_refl H1 H2).
Defined.

(** C8. Every store error reaches the caller of the handler unchanged and
    ends the request: if the request returns, every store call it issued
    succeeded; if it raises [e], the call that failed with [e] is the last
    one it issued and every call before it succeeded.  No error is caught,
    replaced by a default, or followed by further store calls. *)
Theorem store_errors_propagate (rq : ShortenRequest) (w : World) :
  exists new,
    calls (shorten_url rq w).2 = calls w ++ new /\
    match (shorten_url rq w).1 with
    | Return _ => Forall succeeded new
    | Raise e =>
        exists pre op, new = pre ++ [(op, Some e)] /\ Forall succeeded pre
    end.
Proof.
  destruct (shorten_url_run rq w) as
    [e w' _ Hc | s w' _ _ _ Hc | e w' _ _ Hc | e c m1 w' _ _ _ Hc
    | e c m1 w' _ _ _ Hc | c m1 w' _ _ _ Hc];
    eexists; (split; [exact Hc|]).
  - exists [], (GET (url_key (str_of_url (url rq)))).
    split; [reflexivity | constructor].
  - repeat constructor.
  - eexists [_], _. split; [reflexivity | repeat constructor].
  - eexists [_; _], _. split; [reflexivity | repeat constructor].
  - eexists [_; _; _], _. split; [reflexivity | repeat constructor].
  - repeat constructor.
Qed.

(** C9. Every key the program uses lies under the prefix ["shortify:"]:
    a request only reads and writes the reverse mapping under
    [url_key] of its URL, only writes the forward mapping under [slug_key]
    of a slug (with the URL as value), and only increments [COUNTER_KEY];
    and no key of one of the three families is a key of another. *)
Theorem store_keys_namespaced (rq : ShortenRequest) (w : World) :
  (exists new,
     calls (shorten_url rq w).2 = calls w ++ new /\
     Forall (call_key_ok (str_of_url (url rq))) new) /\
  (forall s u,
     String.prefix "shortify:" (slug_key s) = true /\
     String.prefix "shortify:" (url_key u) = true /\
     String.prefix "shortify:" COUNTER_KEY = true) /\
  (forall s u,
     slug_key s <> url_key u /\ slug_key s <> COUNTER_KEY /\
     url_key u <> COUNTER_KEY).
Proof.
  split; [|split].
  - destruct (shorten_url_run rq w) as
      [e w' _ Hc | s w' _ _ _ Hc | e w' _ _ Hc | e c m1 w' _ _ _ Hc
      | e c m1 w' _ _ _ Hc | c m1 w' _ _ _ Hc];
      eexists; (split; [exact Hc|]);
      repeat (constructor; [unfold call_key_ok; simpl; eauto|]); constructor.
  - intros s u. repeat split; reflexivity.
  - intros s u. split; [apply slug_key_ne_url_key|].
    split; [apply slug_key_ne_counter | apply url_key_ne_counter].
Qed.

(* ====================================================================== *)
(** ** More on the codec *)
(* ====================================================================== *)

Lemma str_forall_app p s t :
  str_forall p (s +:+ t) = str_forall p s && str_forall p t.
Proof.
  induction s as [|c s IH]; [reflexivity|].
  rewrite app_cons_str. simpl. rewrite IH, andb_assoc. reflexivity.
Qed.

Lemma BASE62_CHARS_at_in_alphabet d :
  0 <= d < 62 -> str_forall in_alphabet (BASE62_CHARS_at d) = true.
Proof.
  intros Hd. destruct (BASE62_CHARS_at_digit d Hd) as (c & -> & Hc).
  unfold str_forall, in_alphabet. rewrite Hc. reflexivity.
Qed.

Lemma enc_in_alphabet n : 0 <= n -> str_forall in_alphabet (enc n) = true.
Proof.
  intros Hn. pattern n. apply Z_nonneg_strong_ind; [|exact Hn]. clear n Hn.
  intros n Hn IH. destruct (Z.eq_dec n 0) as [->|Hn0].
  - reflexivity.
  - pose proof (div62_lt n ltac:(lia)).
    rewrite enc_pos, str_forall_app, IH by lia.
    apply BASE62_CHARS_at_in_alphabet, mod62_range.
Qed.

Lemma div62_lt_iff n q : n / 62 < q <-> n < 62 * q.
Proof.
  pose proof (Z.div_mod n 62 ltac:(lia)). pose proof (mod62_range n).
  split; intros; [lia | apply Z.div_lt_upper_bound; lia].
Qed.

Lemma enc_length_le_iff (k : nat) :
  forall n, 0 <= n -> (String.length (enc n) <= k)%nat <-> n < 62 ^ Z.of_nat k.
Proof.
  induction k as [|k IH]; intros n Hn.
  - change (62 ^ Z.of_nat 0) with 1.
    destruct (Z.eq_dec n 0) as [->|Hn0].
    + rewrite (enc_nonpos 0) by lia. simpl. split; intros; lia.
    + rewrite enc_length_pos by lia. split; intros; lia.
  - rewrite Nat2Z.inj_succ, Z.pow_succ_r by lia.
    destruct (Z.eq_dec n 0) as [->|Hn0].
    + rewrite (enc_nonpos 0) by lia. simpl.
      assert (0 < 62 ^ Z.of_nat k) by (apply Z.pow_pos_nonneg; lia).
      split; intros; lia.
    + rewrite enc_length_pos by lia.
      pose proof (div62_lt n ltac:(lia)).
      specialize (IH (n / 62) ltac:(lia)).
      pose proof (div62_lt_iff n (62 ^ Z.of_nat k)) as D.
      split; intros; [apply D, IH; lia | apply le_n_S, IH, D; lia].
Qed.

(** X1. Two different non-negative integers never encode to the same
    slug. *)
Theorem encode_base62_injective (m n : Z) :
  0 <= m -> 0 <= n -> encode_base62 m = encode_base62 n -> m = n.
Proof. apply encode_base62_inj. Qed.

Lemma encode_base62_injective_witness :
  encode_base62 3843 = encode_base62 (62 * 62 - 1) /\ 3843 = 62 * 62 - 1.
Proof.
  assert (E : encode_base62 3843 = encode_base62 (62 * 62 - 1)) by reflexivity.
  split; [exact E|].
  apply (encode_base62_injective 3843 (62 * 62 - 1)); [lia | lia | exact E].
Defined.

(** X2. Whatever integer it is given, the encoder only outputs characters
    of [BASE62_CHARS]: digits and ASCII letters, safe in a URL path. *)
Theorem encode_base62_alphabet (n : Z) :
  str_forall in_alphabet (encode_base62 n) = true.
Proof.
  destruct (Z_lt_dec n 0) as [Hneg|Hpos].
  - unfold encode_base62. destruct (Z.eqb_spec n 0); [lia|].
    rewrite encode_loop_nonpos by lia. reflexivity.
  - rewrite encode_base62_decomp, str_forall_app by lia.
    rewrite enc_in_alphabet by (apply Z.div_pos; lia).
    apply BASE62_CHARS_at_in_alphabet, mod62_range.
Qed.

(** X3. For [n >= 0] and [k >= 1], the slug of [n] has at most [k]
    characters exactly when [n < 62^k]. *)
Theorem encode_base62_length_le (n : Z) (k : nat) :
  0 <= n ->
  (String.length (encode_base62 n) <= S k)%nat <-> n < 62 ^ Z.of_nat (S k).
Proof.
  intros Hn. rewrite encode_base62_length by lia.
  rewrite Nat2Z.inj_succ, Z.pow_succ_r by lia.
  pose proof (enc_length_le_iff k (n / 62) ltac:(apply Z.div_pos; lia)) as IH.
  pose proof (div62_lt_iff n (62 ^ Z.of_nat k)) as D.
  split; intros; [apply D, IH; lia | apply le_n_S, IH, D; lia].
Qed.

Lemma encode_base62_length_le_witness :
  (String.length (encode_base62 3843) <= 2)%nat <-> 3843 < 62 ^ Z.of_nat 2.
Proof. apply (encode_base62_length_le 3843 1). lia. Defined.

(** X4. Every counter value the store can hold, from 0 to the largest
    64-bit integer, gets a slug of 1 to 11 characters. *)
Theorem encode_base62_int64_length (n : Z) :
  0 <= n <= INT64_MAX -> (1 <= String.length (encode_base62 n) <= 11)%nat.
Proof.
  intros Hn. rewrite encode_base62_length by lia. split; [lia|].
  apply le_n_S, enc_length_le_iff; [apply Z.div_pos; lia|].
  apply div62_lt_iff. unfold INT64_MAX in Hn.
  change (62 * 62 ^ Z.of_nat 10) with 52036560683837093888. lia.
Qed.

Lemma encode_base62_int64_length_witness :
  (1 <= String.length (encode_base62 INT64_MAX) <= 11)%nat.
Proof.
  apply (encode_base62_int64_length INT64_MAX). unfold INT64_MAX. lia.
Defined.

(** X5. Positional notation: for [q > 0] and a digit [r], the slug of
    [62 * q + r] is the slug of [q] followed by the character at position
    [r] of the alphabet. *)
Theorem encode_base62_append_digit (q r : Z) :
  0 < q -> 0 <= r < 62 ->
  encode_base62 (62 * q + r) = encode_base62 q +:+ BASE62_CHARS_at r.
Proof.
  intros Hq Hr. rewrite encode_base62_decomp by lia.
  assert ((62 * q + r) / 62 = q) as ->.
  { rewrite Z.mul_comm, Z.div_add_l by lia. rewrite Z.div_small by lia. lia. }
  assert ((62 * q + r) mod 62 = r) as ->.
  { rewrite Z.add_comm, Z.mul_comm, Z.mod_add by lia. apply Z.mod_small. lia. }
  rewrite encode_base62_pos by lia. reflexivity.
Qed.

Lemma encode_base62_append_digit_witness :
  encode_base62 (62 * 16 + 8) = encode_base62 16 +:+ BASE62_CHARS_at 8.
Proof. apply (encode_base62_append_digit 16 8); lia. Defined.

(* ====================================================================== *)
(** ** The counter *)
(* ====================================================================== *)

Lemma get_next_counter_returns w c w' :
  get_next_counter w = (Return c, w') ->
  incr_applied (kv w) c (kv w') /\
  calls w' = calls w ++ [ok (INCR COUNTER_KEY)].
Proof.
  unfold get_next_counter, bind, ret.
  destruct (redis_incr_cases w)
    as [(e & m' & rest & _ & ->) | (c' & m' & rest & Hc & ->)]; [discriminate|].
  intros [= <- <-]. split; [exact Hc | reflexivity].
Qed.

(** Lost replies on an empty store: when the reply to the first attempt
    is lost after the store applied it, the call returns 2; when the reply
    to the second attempt is lost as well, the call raises and the counter
    is at 2. *)
Example get_next_counter_lost_replies :
  (get_next_counter (mkWorld ∅ [Some (mkFault StoreTimeout true)] [])).1
    = Return 2 /\
  (get_next_counter
     (mkWorld ∅ [Some (mkFault StoreTimeout true);
                 Some (mkFault StoreTimeout true)] [])).1
    = Raise StoreTimeout /\
  counter_value
    (kv (get_next_counter
           (mkWorld ∅ [Some (mkFault StoreTimeout true);
                       Some (mkFault StoreTimeout true)] [])).2) = 2.
Proof. repeat split; vm_compute; reflexivity. Qed.

(** X7. Two calls of [get_next_counter] in a row that both return give
    strictly increasing values; the second exceeds the first by one, or by
    two when a reply was lost and the increment issued again. *)
Theorem get_next_counter_strictly_increasing (w w1 w2 : World) (c1 c2 : Z) :
  get_next_counter w = (Return c1, w1) ->
  get_next_counter w1 = (Return c2, w2) ->
  c1 < c2 <= c1 + 2.
Proof.
  intros H1 H2.
  destruct (get_next_counter_returns _ _ _ H1) as (Hc1 & _).
  destruct (get_next_counter_returns _ _ _ H2) as (Hc2 & _).
  destruct (incr_applied_value _ _ _ Hc1) as (_ & _ & _ & Hv1).
  destruct (incr_applied_value _ _ _ Hc2) as (Hv2 & _).
  lia.
Qed.

Lemma get_next_counter_strictly_increasing_witness : 1 < 3 <= 1 + 2.
Proof.
  apply (get_next_counter_strictly_increasing world_lossy
           (get_next_counter world_lossy).2
           (get_next_counter (get_next_counter world_lossy).2).2 1 3);
    reflexivity.
Defined.

(* ====================================================================== *)
(** ** More on the request path *)
(* ====================================================================== *)

(** The counter only moves upwards, by at most two per request. *)
Lemma shorten_run_counter u w res w' :
  shorten_run u w res w' ->
  counter_value (kv w) <= counter_value (kv w') <= counter_value (kv w) + 2.
Proof.
  intros [e w1 Hk _ | s w1 _ _ Hk _ | e w1 _ Hk _ | e c m1 w1 _ Hc Hk _
         | e c m1 w1 _ Hc Hk _ | c m1 w1 _ Hc Hk _].
  - rewrite Hk. lia.
  - rewrite Hk. lia.
  - destruct Hk as [-> | (c & Hc)]; [lia|].
    destruct (incr_applied_value _ _ _ Hc) as (Hlt & _ & _ & ->). lia.
  - destruct (incr_applied_value _ _ _ Hc) as (Hlt & _ & _ & Hv).
    destruct Hk as [-> | ->]; rewrite ?counter_value_insert_other by other_key;
      lia.
  - destruct (incr_applied_value _ _ _ Hc) as (Hlt & _ & _ & Hv).
    destruct Hk as [-> | ->]; rewrite ?counter_value_insert_other by other_key;
      lia.
  - destruct (incr_applied_value _ _ _ Hc) as (Hlt & _ & _ & Hv).
    rewrite Hk, !counter_value_insert_other by other_key. lia.
Qed.

(** X8. Whatever happens during a request, failures included, the counter
    is never decremented or reset, and it moves by at most two: the
    request issues one increment, which the client issues again at most
    once. *)
Theorem shorten_url_counter_step (rq : ShortenRequest) (w : World) :
  counter_value (kv w) <= counter_value (kv (shorten_url rq w).2)
  <= counter_value (kv w) + 2.
Proof. apply (shorten_run_counter _ _ _ _ (shorten_url_run rq w)). Qed.

(** What a returned response looks like. *)
Lemma shorten_url_response_shape_aux rq w w' r :
  shorten_url rq w = (Return r, w') ->
  short_url r = "/" +:+ slug r /\
  original_url r = str_of_url (url rq) /\
  kv w' !! url_key (str_of_url (url rq)) = Some (slug r).
Proof.
  intros H. pose proof (shorten_url_run rq w) as Hrun. rewrite H in Hrun.
  simpl in Hrun.
  inversion Hrun as [ | s w1 Hs _ Hk _ | | | | c m1 w1 _ _ Hk _]; subst; simpl.
  - rewrite Hk. auto.
  - rewrite Hk, lookup_insert_eq. auto.
Qed.

(** X9. Every response the handler returns has [short_url = "/" + slug]
    and echoes [str(request.url)] as [original_url], and the reverse
    mapping of that URL holds the returned slug afterwards. *)
Theorem shorten_url_response_shape
    (rq : ShortenRequest) (w w' : World) (r : ShortenResponse) :
  shorten_url rq w = (Return r, w') ->
  short_url r = "/" +:+ slug r /\
  original_url r = str_of_url (url rq) /\
  kv w' !! url_key (str_of_url (url rq)) = Some (slug r).
Proof. apply shorten_url_response_shape_aux. Qed.

Lemma shorten_url_response_shape_witness :
  short_url (response "1" "https://a.example/") = "/" +:+ "1" /\
  original_url (response "1" "https://a.example/") = "https://a.example/" /\
  kv world_a !! url_key "https://a.example/" = Some "1".
Proof.
  apply (shorten_url_response_shape request_a world0 world_a
           (response "1" "https://a.example/")).
  vm_compute. reflexivity.
Defined.

(** A request that finds nothing and returns has minted. *)
Lemma shorten_url_minted
    (rq : ShortenRequest) (w w' : World) (r : ShortenResponse) :
  truthy (kv w !! url_key (str_of_url (url rq))) = false ->
  shorten_url rq w = (Return r, w') ->
  slug r = encode_base62 (counter_value (kv w')) /\
  counter_value (kv w) < counter_value (kv w') <= counter_value (kv w) + 2 /\
  kv w' !! slug_key (slug r) = Some (str_of_url (url rq)) /\
  kv w' !! url_key (str_of_url (url rq)) = Some (slug r) /\
  calls w' = calls w ++
    [ok (GET (url_key (str_of_url (url rq)))); ok (INCR COUNTER_KEY);
     ok (SET (slug_key (slug r)) (str_of_url (url rq)));
     ok (SET (url_key (str_of_url (url rq))) (slug r))].
Proof.
  intros Hmiss H. pose proof (shorten_url_run rq w) as Hrun. rewrite H in Hrun.
  simpl in Hrun.
  inversion Hrun as [ | s w1 Hs Hne _ _ | | | | c m1 w1 _ Hc Hk Hl]; subst; simpl.
  - rewrite Hs in Hmiss. simpl in Hmiss.
    destruct (String.eqb_spec s ""); [contradiction | discriminate].
  - destruct (incr_applied_value _ _ _ Hc) as (Hlt & _ & _ & Hv).
    assert (Hv' : counter_value (kv w') = c).
    { rewrite Hk, !counter_value_insert_other by other_key. exact Hv. }
    rewrite Hv'. split; [reflexivity|]. split; [lia|].
    split; [|split; [|exact Hl]].
    + rewrite Hk, lookup_insert_ne by other_key. apply lookup_insert_eq.
    + rewrite Hk. apply lookup_insert_eq.
Qed.

(** X10. When the lookup finds nothing (no value, or the empty string) and
    the request returns, it has issued GET, INCR, SET, SET in that order,
    the slug is the encoding of the counter as the store then holds it,
    which is above the old one by one or two, and both the forward and the
    reverse mapping are in the store. *)
Theorem shorten_url_mints_both_mappings
    (rq : ShortenRequest) (w w' : World) (r : ShortenResponse) :
  truthy (kv w !! url_key (str_of_url (url rq))) = false ->
  shorten_url rq w = (Return r, w') ->
  slug r = encode_base62 (counter_value (kv w')) /\
  counter_value (kv w) < counter_value (kv w') <= counter_value (kv w) + 2 /\
  kv w' !! slug_key (slug r) = Some (str_of_url (url rq)) /\
  kv w' !! url_key (str_of_url (url rq)) = Some (slug r) /\
  calls w' = calls w ++
    [ok (GET (url_key (str_of_url (url rq)))); ok (INCR COUNTER_KEY);
     ok (SET (slug_key (slug r)) (str_of_url (url rq)));
     ok (SET (url_key (str_of_url (url rq))) (slug r))].
Proof. apply shorten_url_minted. Qed.

Lemma shorten_url_mints_both_mappings_witness :
  slug (response "2" "https://a.example/")
    = encode_base62 (counter_value (kv (shorten_url request_a world_lossy).2)) /\
  counter_value (kv world_lossy)
    < counter_value (kv (shorten_url request_a world_lossy).2)
    <= counter_value (kv world_lossy) + 2 /\
  kv (shorten_url request_a world_lossy).2 !! slug_key "2"
    = Some "https://a.example/" /\
  kv (shorten_url request_a world_lossy).2 !! url_key "https://a.example/"
    = Some "2" /\
  calls (shorten_url request_a world_lossy).2 = calls world_lossy ++
    [ok (GET (url_key "https://a.example/")); ok (INCR COUNTER_KEY);
     ok (SET (slug_key "2") "https://a.example/");
     ok (SET (url_key "https://a.example/") "2")].
Proof.
  apply (shorten_url_mints_both_mappings request_a world_lossy
           (shorten_url request_a world_lossy).2
           (response "2" "https://a.example/")).
  - vm_compute. reflexivity.
  - vm_compute. reflexivity.
Defined.

(* ====================================================================== *)
(** ** The mappings of a filled store *)
(* ====================================================================== *)

Lemma issued_mono m m' s :
  counter_value m <= counter_value m' -> issued m s -> issued m' s.
Proof. intros H (c & Hc & ->). exists c. split; [lia | reflexivity]. Qed.

Lemma issued_nonempty m s : issued m s -> s <> "".
Proof. intros (c & Hc & ->). apply encode_base62_nonempty. lia. Qed.

Lemma store_ok_inv m : store_ok m -> store_inv m.
Proof.
  intros (Hc & Hr & _). split; [exact Hc|].
  intros u s Hs. apply (issued_nonempty m), (Hr u s Hs).
Qed.

Lemma store_ok_empty : store_ok ∅.
Proof.
  split; [apply store_inv_empty|].
  split; intros ? ?; rewrite lookup_empty; discriminate.
Qed.

(** In a filled store a lookup that is not truthy found nothing. *)
Lemma store_ok_miss m u :
  store_ok m -> truthy (m !! url_key u) = false -> m !! url_key u = None.
Proof.
  intros Hok Hm. destruct (m !! url_key u) as [s|] eqn:E; [|reflexivity].
  destruct Hok as (_ & Hr & _). destruct (Hr u s E) as (Hi & _).
  apply issued_nonempty in Hi. simpl in Hm.
  destruct (String.eqb_spec s ""); [contradiction | discriminate].
Qed.

(** The increment: the new value is one that no stored slug encodes. *)
Lemma store_ok_incr m c m1 :
  store_ok m -> incr_applied m c m1 ->
  store_ok m1 /\ counter_value m1 = c /\ 1 <= c /\
  (forall k, k <> COUNTER_KEY -> m1 !! k = m !! k) /\
  m !! slug_key (encode_base62 c) = None /\
  (forall u, m !! url_key u <> Some (encode_base62 c)).
Proof.
  intros Hok Hc. pose proof (store_ok_inv m Hok) as Hinv.
  destruct (incr_applied_inv _ _ _ Hinv Hc) as (Hc1 & Hm1 & Hinv1).
  destruct (incr_applied_value _ _ _ Hc) as (Hv & _ & _ & Hv1).
  destruct Hok as (_ & Hr & Hf).
  assert (Hk : forall k, k <> COUNTER_KEY -> m1 !! k = m !! k).
  { intros k Hk. rewrite Hm1. apply lookup_insert_ne. auto. }
  assert (Hnew : forall s, issued m s -> s <> encode_base62 c).
  { intros s (c' & Hc' & ->) E. apply encode_base62_inj in E; lia. }
  split; [|split; [exact Hv1|split; [lia|split; [exact Hk|split]]]].
  - split; [apply Hinv1|]. split.
    + intros u s. rewrite !Hk by other_key. intros Hs.
      destruct (Hr u s Hs) as (Hi & Hfw). split; [|exact Hfw].
      apply (issued_mono m); [lia | exact Hi].
    + intros s u. rewrite Hk by other_key. intros Hs.
      apply (issued_mono m); [lia | exact (Hf s u Hs)].
  - destruct (m !! slug_key (encode_base62 c)) as [u|] eqn:E; [|reflexivity].
    exfalso. exact (Hnew _ (Hf _ _ E) eq_refl).
  - intros u E. destruct (Hr u _ E) as (Hi & _). exact (Hnew _ Hi eq_refl).
Qed.

(** The forward write of a slug that no reverse mapping holds. *)
Lemma store_ok_forward m c u :
  store_ok m -> counter_value m = c -> 1 <= c ->
  (forall u', m !! url_key u' <> Some (encode_base62 c)) ->
  store_ok (<[slug_key (encode_base62 c) := u]> m).
Proof.
  intros (Hc & Hr & Hf) Hv Hc1 Hnew.
  assert (Hv' : counter_value (<[slug_key (encode_base62 c) := u]> m) = c).
  { rewrite counter_value_insert_other by other_key. exact Hv. }
  split; [|split].
  - unfold counter_ok. rewrite lookup_insert_ne by other_key. exact Hc.
  - intros u' s. rewrite lookup_insert_ne by other_key. intros Hs.
    destruct (Hr u' s Hs) as (Hi & Hfw). split.
    + apply (issued_mono m); [lia | exact Hi].
    + rewrite lookup_insert_ne; [exact Hfw|].
      intros E. apply slug_key_inj in E. subst s. exact (Hnew u' Hs).
  - intros s u'. destruct (decide (slug_key (encode_base62 c) = slug_key s)) as [E|E].
    + intros _. apply slug_key_inj in E. subst s. exists c. split; [lia | reflexivity].
    + rewrite lookup_insert_ne by exact E. intros Hs.
      apply (issued_mono m); [lia | exact (Hf s u' Hs)].
Qed.

(** The reverse write, once the forward mapping is there. *)
Lemma store_ok_reverse m c u :
  store_ok m -> counter_value m = c -> 1 <= c ->
  m !! slug_key (encode_base62 c) = Some u ->
  store_ok (<[url_key u := encode_base62 c]> m).
Proof.
  intros (Hc & Hr & Hf) Hv Hc1 Hfw.
  assert (Hv' : counter_value (<[url_key u := encode_base62 c]> m) = c).
  { rewrite counter_value_insert_other by other_key. exact Hv. }
  split; [|split].
  - unfold counter_ok. rewrite lookup_insert_ne by other_key. exact Hc.
  - intros u' s. destruct (decide (url_key u = url_key u')) as [E|E].
    + rewrite E, lookup_insert_eq. intros [= <-]. apply url_key_inj in E. subst u'.
      split; [exists c; split; [lia | reflexivity]|].
      rewrite lookup_insert_ne by other_key. exact Hfw.
    + rewrite lookup_insert_ne by exact E. intros Hs.
      destruct (Hr u' s Hs) as (Hi & Hfw'). split.
      * apply (issued_mono m); [lia | exact Hi].
      * rewrite lookup_insert_ne by other_key. exact Hfw'.
  - intros s u'. rewrite lookup_insert_ne by other_key. intros Hs.
    apply (issued_mono m); [lia | exact (Hf s u' Hs)].
Qed.

Lemma store_ok_mint_steps m c m1 u :
  store_ok m -> incr_applied m c m1 ->
  store_ok m1 /\
  store_ok (<[slug_key (encode_base62 c) := u]> m1) /\
  store_ok (<[url_key u := encode_base62 c]>
              (<[slug_key (encode_base62 c) := u]> m1)).
Proof.
  intros Hok Hc.
  destruct (store_ok_incr _ _ _ Hok Hc) as (Hok1 & Hv & Hc1 & Hk & _ & Hnew).
  assert (Hok2 : store_ok (<[slug_key (encode_base62 c) := u]> m1)).
  { apply store_ok_forward; auto.
    intros u'. rewrite Hk by other_key. apply Hnew. }
  split; [exact Hok1|]. split; [exact Hok2|].
  apply store_ok_reverse; auto.
  - rewrite counter_value_insert_other by other_key. exact Hv.
  - apply lookup_insert_eq.
Qed.

Lemma shorten_run_preserves_ok u w res w' :
  store_ok (kv w) -> shorten_run u w res w' -> store_ok (kv w').
Proof.
  intros Hok [e w1 Hk _ | s w1 _ _ Hk _ | e w1 _ Hk _ | e c m1 w1 _ Hc Hk _
             | e c m1 w1 _ Hc Hk _ | c m1 w1 _ Hc Hk _].
  - rewrite Hk. exact Hok.
  - rewrite Hk. exact Hok.
  - destruct Hk as [-> | (c & Hc)]; [exact Hok|].
    apply (store_ok_mint_steps _ _ _ u Hok Hc).
  - destruct (store_ok_mint_steps _ _ _ u Hok Hc) as (H1 & H2 & _).
    destruct Hk as [-> | ->]; assumption.
  - destruct (store_ok_mint_steps _ _ _ u Hok Hc) as (_ & H2 & H3).
    destruct Hk as [-> | ->]; assumption.
  - destruct (store_ok_mint_steps _ _ _ u Hok Hc) as (_ & _ & H3).
    rewrite Hk. exact H3.
Qed.

Lemma reachable_store_ok w : reachable w -> store_ok (kv w).
Proof.
  induction 1 as [nt | rq w _ IH].
  - apply store_ok_empty.
  - exact (shorten_run_preserves_ok _ _ _ _ IH (shorten_url_run rq w)).
Qed.

(** Every key other than the counter keeps the value it has. *)
Lemma shorten_run_keeps u w res w' k v :
  store_ok (kv w) -> shorten_run u w res w' ->
  k <> COUNTER_KEY -> kv w !! k = Some v -> kv w' !! k = Some v.
Proof.
  intros Hok Hrun Hk Hv.
  assert (Hfresh : forall c m1, incr_applied (kv w) c m1 ->
            m1 !! k = Some v /\ k <> slug_key (encode_base62 c)).
  { intros c m1 Hc.
    destruct (store_ok_incr _ _ _ Hok Hc) as (_ & _ & _ & Hk1 & Hnone & _).
    split; [rewrite Hk1 by exact Hk; exact Hv|]. congruence. }
  assert (Hurl : truthy (kv w !! url_key u) = false -> k <> url_key u).
  { intros Hm E. apply (store_ok_miss _ _ Hok) in Hm. congruence. }
  destruct Hrun as [e w1 Hkv _ | s w1 _ _ Hkv _ | e w1 _ Hkv _
                   | e c m1 w1 _ Hc Hkv _ | e c m1 w1 Hm Hc Hkv _
                   | c m1 w1 Hm Hc Hkv _].
  - rewrite Hkv. exact Hv.
  - rewrite Hkv. exact Hv.
  - destruct Hkv as [-> | (c & Hc)]; [exact Hv|]. apply (Hfresh _ _ Hc).
  - destruct (Hfresh _ _ Hc) as (H1 & H2).
    destruct Hkv as [-> | ->]; [exact H1|].
    rewrite lookup_insert_ne by auto. exact H1.
  - destruct (Hfresh _ _ Hc) as (H1 & H2). specialize (Hurl Hm).
    destruct Hkv as [-> | ->]; rewrite !lookup_insert_ne by auto; exact H1.
  - destruct (Hfresh _ _ Hc) as (H1 & H2). specialize (Hurl Hm).
    rewrite Hkv, !lookup_insert_ne by auto. exact H1.
Qed.

(** X11. In every world the service passes through, each slug under which
    a forward mapping is stored is the encoding of a counter value that
    was issued: between 1 and the current counter. *)
Theorem reachable_slugs_issued (w : World) (s u : string) :
  reachable w ->
  kv w !! slug_key s = Some u ->
  exists c, 1 <= c <= counter_value (kv w) /\ s = encode_base62 c.
Proof.
  intros Hr Hs. destruct (reachable_store_ok w Hr) as (_ & _ & Hf).
  exact (Hf s u Hs).
Qed.

Lemma reachable_slugs_issued_witness :
  exists c, 1 <= c <= counter_value (kv world_ab) /\ "2" = encode_base62 c.
Proof.
  apply (reachable_slugs_issued world_ab "2" "https://b.example/").
  - exact (reach_request request_b _ (reach_request request_a _ (reach_init []))).
  - vm_compute. reflexivity.
Defined.

(** X12. In every world the service passes through, a reverse mapping
    never dangles: the slug it holds is not empty and its forward mapping
    leads back to the same URL.  The forward write comes first, and a
    failure ends the request before the reverse write. *)
Theorem reachable_reverse_resolves (w : World) (u s : string) :
  reachable w ->
  kv w !! url_key u = Some s ->
  kv w !! slug_key s = Some u /\ s <> "".
Proof.
  intros Hr Hs. destruct (reachable_store_ok w Hr) as (_ & Hrv & _).
  destruct (Hrv u s Hs) as (Hi & Hfw). split; [exact Hfw|].
  exact (issued_nonempty _ _ Hi).
Qed.

Lemma reachable_reverse_resolves_witness :
  kv world_ab !! slug_key "1" = Some "https://a.example/" /\ "1" <> "".
Proof.
  apply (reachable_reverse_resolves world_ab "https://a.example/" "1").
  - exact (reach_request request_b _ (reach_request request_a _ (reach_init []))).
  - vm_compute. reflexivity.
Defined.

(** X13. In every world the service passes through, a request leaves
    every key other than the counter with the value it had: forward and
    reverse mappings, once written, are never changed, whatever the
    request and whatever fails. *)
Theorem shorten_url_never_overwrites
    (rq : ShortenRequest) (w : World) (k v : string) :
  reachable w ->
  k <> COUNTER_KEY ->
  kv w !! k = Some v ->
  kv (shorten_url rq w).2 !! k = Some v.
Proof.
  intros Hr Hk Hv.
  exact (shorten_run_keeps _ _ _ _ k v (reachable_store_ok w Hr)
           (shorten_url_run rq w) Hk Hv).
Qed.

Lemma shorten_url_never_overwrites_witness :
  kv (shorten_url request_b world_a).2 !! slug_key "1" = Some "https://a.example/".
Proof.
  apply (shorten_url_never_overwrites request_b world_a).
  - exact (reach_request request_a _ (reach_init [])).
  - discriminate.
  - vm_compute. reflexivity.
Defined.

(** X14. In every world the service passes through, the slug returned for
    a URL that was not known is new: before the request no forward mapping
    was stored under it and no reverse mapping held it. *)
Theorem shorten_url_mints_fresh_slug
    (rq : ShortenRequest) (w w' : World) (r : ShortenResponse) :
  reachable w ->
  kv w !! url_key (str_of_url (url rq)) = None ->
  shorten_url rq w = (Return r, w') ->
  kv w !! slug_key (slug r) = None /\
  (forall u, kv w !! url_key u <> Some (slug r)).
Proof.
  intros Hr Hmiss H. pose proof (shorten_url_run rq w) as Hrun.
  rewrite H in Hrun. simpl in Hrun.
  inversion Hrun as [ | s w1 Hs _ _ _ | | | | c m1 w1 _ Hc _ _]; subst;
    [congruence|]. simpl.
  destruct (store_ok_incr _ _ _ (reachable_store_ok w Hr) Hc)
    as (_ & _ & _ & _ & Hnone & Hnew).
  split; [exact Hnone | exact Hnew].
Qed.

Lemma shorten_url_mints_fresh_slug_witness :
  kv world_a !! slug_key (slug (response "2" "https://b.example/")) = None /\
  (forall u, kv world_a !! url_key u
             <> Some (slug (response "2" "https://b.example/"))).
Proof.
  apply (shorten_url_mints_fresh_slug request_b world_a world_ab).
  - exact (reach_request request_a _ (reach_init [])).
  - vm_compute. reflexivity.
  - vm_compute. reflexivity.
Defined.

(* ====================================================================== *)
(** ** Outside the data model, and partial failures *)
(* ====================================================================== *)

Lemma encode_base62_neg n : n < 0 -> encode_base62 n = "".
Proof.
  intros Hn. unfold encode_base62. destruct (Z.eqb_spec n 0); [lia|].
  rewrite encode_loop_nonpos by lia. reflexivity.
Qed.

(** X15. Outside the data model: when the stored counter is below -2, a
    request for an unknown URL that returns gives the empty slug and the
    short URL ["/"] and stores the empty string as reverse mapping, and
    the next request for the same URL is not answered from the store: it
    increments the counter again. *)
Theorem negative_counter_defeats_dedup
    (rq : ShortenRequest) (w w1 w2 : World) (r1 r2 : ShortenResponse) :
  counter_value (kv w) < -2 ->
  truthy (kv w !! url_key (str_of_url (url rq))) = false ->
  shorten_url rq w = (Return r1, w1) ->
  shorten_url rq w1 = (Return r2, w2) ->
  slug r1 = "" /\ short_url r1 = "/" /\
  kv w1 !! url_key (str_of_url (url rq)) = Some "" /\
  counter_value (kv w1) < counter_value (kv w2).
Proof.
  intros Hz Hmiss H1 H2.
  destruct (shorten_url_minted _ _ _ _ Hmiss H1) as (Hs1 & Hv1 & _ & Hr1 & _).
  rewrite encode_base62_neg in Hs1 by lia.
  destruct (shorten_url_response_shape_aux _ _ _ _ H1) as (Hsh & _).
  rewrite Hs1 in Hr1, Hsh.
  assert (Hmiss1 : truthy (kv w1 !! url_key (str_of_url (url rq))) = false).
  { rewrite Hr1. reflexivity. }
  destruct (shorten_url_minted _ _ _ _ Hmiss1 H2) as (_ & Hv2 & _).
  split; [exact Hs1|]. split; [exact Hsh|]. split; [exact Hr1 | lia].
Qed.

Lemma negative_counter_defeats_dedup_witness :
  slug (response "" "https://a.example/") = "" /\
  short_url (response "" "https://a.example/") = "/" /\
  kv (shorten_url request_a world_neg).2 !! url_key "https://a.example/" = Some "" /\
  counter_value (kv (shorten_url request_a world_neg).2)
  < counter_value
      (kv (shorten_url request_a (shorten_url request_a world_neg).2).2).
Proof.
  apply (negative_counter_defeats_dedup request_a world_neg
           (shorten_url request_a world_neg).2
           (shorten_url request_a (shorten_url request_a world_neg).2).2
           (response "" "https://a.example/")
           (response "" "https://a.example/")).
  - vm_compute. reflexivity.
  - vm_compute. reflexivity.
  - vm_compute. reflexivity.
  - vm_compute. reflexivity.
Defined.

(** The run in which everything goes through but the last write, which
    fails at both attempts without reaching the store. *)
Lemma shorten_url_reverse_write_fails rq w e1 e rest c m1 :
  net w = [None; None; None; Some (mkFault e1 false); Some (mkFault e false)]
          ++ rest ->
  truthy (kv w !! url_key (str_of_url (url rq))) = false ->
  incr_apply COUNTER_KEY (kv w) = inr (c, m1) ->
  shorten_url rq w =
  (Raise e,
   mkWorld (<[slug_key (encode_base62 c) := str_of_url (url rq)]> m1) rest
     (calls w ++
      [ok (GET (url_key (str_of_url (url rq)))); ok (INCR COUNTER_KEY);
       ok (SET (slug_key (encode_base62 c)) (str_of_url (url rq)));
       failed (SET (url_key (str_of_url (url rq))) (encode_base62 c)) e])).
Proof.
  intros Hnet Hmiss Hc. rewrite shorten_url_unfold.
  set (u := str_of_url (url rq)) in *.
  destruct w as [m nt cs]. simpl in Hnet, Hmiss, Hc. subst nt.
  unfold bind, redis_get, store_call. simpl.
  assert (Hm : match m !! url_key u with
               | Some s => if negb (String.eqb s "") then ret (response s u) else mint u
               | None => mint u
               end = mint u).
  { destruct (m !! url_key u) as [s|]; [|reflexivity].
    simpl in Hmiss. rewrite Hmiss. reflexivity. }
  rewrite Hm.
  unfold mint, get_next_counter, bind, redis_incr, redis_set, store_call, ret.
  simpl. rewrite Hc. simpl. rewrite <- !app_assoc. reflexivity.
Qed.

(** X16. No rollback: when the lookup, the increment and the forward write
    go through and the reverse write fails without being applied, at the
    first attempt and at the one the client makes after it, the request
    raises the last error, the forward mapping of the new slug stays in
    the store, the reverse mapping of the URL is as before, and the
    counter value is spent. *)
Theorem reverse_write_failure_leaves_forward
    (rq : ShortenRequest) (w : World) (e1 e : StoreError)
    (rest : list (option Fault)) (c : Z) (m1 : gmap string string) :
  net w = [None; None; None; Some (mkFault e1 false); Some (mkFault e false)]
          ++ rest ->
  truthy (kv w !! url_key (str_of_url (url rq))) = false ->
  incr_apply COUNTER_KEY (kv w) = inr (c, m1) ->
  (shorten_url rq w).1 = Raise e /\
  kv (shorten_url rq w).2 !! slug_key (encode_base62 c) = Some (str_of_url (url rq)) /\
  kv (shorten_url rq w).2 !! url_key (str_of_url (url rq)) =
    kv w !! url_key (str_of_url (url rq)) /\
  counter_value (kv (shorten_url rq w).2) = counter_value (kv w) + 1.
Proof.
  intros Hnet Hmiss Hc.
  rewrite (shorten_url_reverse_write_fails _ _ _ _ _ _ _ Hnet Hmiss Hc). simpl.
  destruct (incr_apply_value _ _ _ Hc) as (Hv & _ & Hm1 & Hv1).
  split; [reflexivity|]. split; [apply lookup_insert_eq|]. split.
  - rewrite lookup_insert_ne by other_key. rewrite Hm1.
    apply lookup_insert_ne. other_key.
  - rewrite counter_value_insert_other by other_key. lia.
Qed.

Lemma reverse_write_failure_leaves_forward_witness :
  (shorten_url request_a world_flaky).1 = Raise StoreTimeout /\
  kv (shorten_url request_a world_flaky).2 !! slug_key (encode_base62 1)
    = Some "https://a.example/" /\
  kv (shorten_url request_a world_flaky).2 !! url_key "https://a.example/"
    = kv world_flaky !! url_key "https://a.example/" /\
  counter_value (kv (shorten_url request_a world_flaky).2)
    = counter_value (kv world_flaky) + 1.
Proof.
  apply (reverse_write_failure_leaves_forward request_a world_flaky
           ConnectionFailed StoreTimeout [] 1 (<[COUNTER_KEY := print_int 1]> ∅));
    reflexivity.
Defined.

(** X17. After such a failure, a retry for the same URL that returns gets
    a later slug, the encoding of the counter as the store then holds it
    and different from the slug of the failed attempt, and both forward
    mappings then lead to the URL. *)
Theorem retry_after_partial_write_mints_again
    (rq : ShortenRequest) (w w2 : World) (e1 e : StoreError)
    (rest : list (option Fault)) (c : Z) (m1 : gmap string string)
    (r : ShortenResponse) :
  net w = [None; None; None; Some (mkFault e1 false); Some (mkFault e false)]
          ++ rest ->
  truthy (kv w !! url_key (str_of_url (url rq))) = false ->
  incr_apply COUNTER_KEY (kv w) = inr (c, m1) ->
  0 <= c ->
  shorten_url rq (shorten_url rq w).2 = (Return r, w2) ->
  slug r = encode_base62 (counter_value (kv w2)) /\
  c < counter_value (kv w2) /\
  slug r <> encode_base62 c /\
  kv w2 !! slug_key (encode_base62 c) = Some (str_of_url (url rq)) /\
  kv w2 !! slug_key (slug r) = Some (str_of_url (url rq)).
Proof.
  intros Hnet Hmiss Hc Hc0.
  rewrite (shorten_url_reverse_write_fails _ _ _ _ _ _ _ Hnet Hmiss Hc). simpl.
  set (u := str_of_url (url rq)) in *.
  set (w1 := mkWorld _ _ _). intros H2.
  destruct (incr_apply_value _ _ _ Hc) as (Hv & _ & Hm1 & Hv1).
  assert (Hv1' : counter_value (kv w1) = c).
  { simpl. rewrite counter_value_insert_other by other_key. exact Hv1. }
  assert (Hmiss1 : truthy (kv w1 !! url_key u) = false).
  { simpl. rewrite lookup_insert_ne by other_key.
    rewrite Hm1, lookup_insert_ne by other_key. exact Hmiss. }
  destruct (shorten_url_minted _ _ _ _ Hmiss1 H2) as (Hs & Hlt & Hfw & _).
  rewrite Hv1' in Hlt.
  assert (Hd : slug r <> encode_base62 c).
  { rewrite Hs. intros E. apply encode_base62_inj in E; lia. }
  split; [exact Hs|]. split; [lia|]. split; [exact Hd|]. split; [|exact Hfw].
  pose proof (shorten_url_run rq w1) as Hrun. rewrite H2 in Hrun. simpl in Hrun.
  fold u in Hrun.
  inversion Hrun as [ | s w' Hs' Hne _ _ Er | | | | c2 m2 w' _ Hc2 Hk2 _ Er].
  { rewrite Hs' in Hmiss1. simpl in Hmiss1.
    destruct (String.eqb_spec s ""); [contradiction | discriminate]. }
  destruct (incr_applied_value _ _ _ Hc2) as (Hlt2 & _ & Hm2 & _).
  rewrite Hv1' in Hlt2.
  assert (Hd2 : slug_key (encode_base62 c2) <> slug_key (encode_base62 c)).
  { intros E. apply slug_key_inj, encode_base62_inj in E; lia. }
  rewrite Hk2, lookup_insert_ne by other_key.
  rewrite lookup_insert_ne by exact Hd2.
  rewrite Hm2, lookup_insert_ne by other_key.
  simpl. apply lookup_insert_eq.
Qed.

Lemma retry_after_partial_write_mints_again_witness :
  slug (response "2" "https://a.example/")
    = encode_base62
        (counter_value
           (kv (shorten_url request_a (shorten_url request_a world_flaky).2).2)) /\
  1 < counter_value
        (kv (shorten_url request_a (shorten_url request_a world_flaky).2).2) /\
  slug (response "2" "https://a.example/") <> encode_base62 1 /\
  kv (shorten_url request_a (shorten_url request_a world_flaky).2).2
    !! slug_key (encode_base62 1) = Some "https://a.example/" /\
  kv (shorten_url request_a (shorten_url request_a world_flaky).2).2
    !! slug_key (slug (response "2" "https://a.example/"))
    = Some "https://a.example/".
Proof.
  apply (retry_after_partial_write_mints_again request_a world_flaky
           (shorten_url request_a (shorten_url request_a world_flaky).2).2
           ConnectionFailed StoreTimeout [] 1 (<[COUNTER_KEY := print_int 1]> ∅)).
  - reflexivity.
  - reflexivity.
  - reflexivity.
  - lia.
  - vm_compute. reflexivity.
Defined.

(* ====================================================================== *)
(** ** Matching by derivatives is matching *)
(* ====================================================================== *)

Lemma app_eq_nil_str s t : s +:+ t = "" -> s = "" /\ t = "".
Proof. destruct s; [auto | rewrite app_cons_str; discriminate]. Qed.

Lemma app_eq_cons_str s t c u :
  s +:+ t = String c u ->
  (s = "" /\ t = String c u) \/ (exists s', s = String c s' /\ u = s' +:+ t).
Proof.
  destruct s as [|c' s'].
  - left. auto.
  - rewrite app_cons_str. intros [= -> <-]. right. eauto.
Qed.

Lemma lang_void s : ~ lang Void s.
Proof. intros H. inversion H. Qed.

Lemma lang_eps_inv s : lang Eps s -> s = "".
Proof. intros H. inversion H. reflexivity. Qed.

Lemma lang_class_inv p s : lang (Class p) s -> exists c, s = String c "" /\ p c = true.
Proof. intros H. inversion H; subst. eauto. Qed.

Lemma lang_cat_inv r1 r2 s :
  lang (Cat r1 r2) s -> exists s1 s2, s = s1 +:+ s2 /\ lang r1 s1 /\ lang r2 s2.
Proof. intros H. inversion H; subst. eauto. Qed.

Lemma lang_alt_inv r1 r2 s : lang (Alt r1 r2) s -> lang r1 s \/ lang r2 s.
Proof. intros H. inversion H; subst; auto. Qed.

Lemma lang_star_inv r s :
  lang (Star r) s ->
  s = "" \/ exists s1 s2, s = s1 +:+ s2 /\ lang r s1 /\ lang (Star r) s2.
Proof.
  intros H. inversion H; subst; [left; reflexivity|].
  right. eexists _, _. split; [reflexivity|]. split; eassumption.
Qed.

(** A non-empty match of a star starts with a non-empty match of its body. *)
Lemma lang_star_cons_inv r c s :
  lang (Star r) (String c s) ->
  exists s1 s2, s = s1 +:+ s2 /\ lang r (String c s1) /\ lang (Star r) s2.
Proof.
  remember (Star r) as r' eqn:Er. remember (String c s) as t eqn:Et.
  intros H. revert Er Et.
  induction H as [ | | | | | r0 | r0 s1 s2 H1 _ H2 IH2]; try discriminate.
  intros [= ->] Et.
  destruct (app_eq_cons_str _ _ _ _ Et) as [(-> & ->) | (s1' & -> & ->)].
  - apply IH2; reflexivity.
  - eauto.
Qed.

Lemma nullable_lang r : nullable r = true <-> lang r "".
Proof.
  induction r as [ | | p | r1 IH1 r2 IH2 | r1 IH1 r2 IH2 | r IH]; simpl.
  - split; [discriminate | intros H; inversion H].
  - split; [constructor | reflexivity].
  - split; [discriminate | intros H; inversion H].
  - rewrite andb_true_iff, IH1, IH2. split.
    + intros [H1 H2]. exact (lang_cat _ _ _ _ H1 H2).
    + intros H. apply lang_cat_inv in H as (s1 & s2 & E & H1 & H2).
      symmetry in E. apply app_eq_nil_str in E as [-> ->]. auto.
  - rewrite orb_true_iff, IH1, IH2. split.
    + intros [H | H]; [apply lang_alt_l | apply lang_alt_r]; exact H.
    + apply lang_alt_inv.
  - split; [constructor | reflexivity].
Qed.

Lemma lang_cat' a b s : lang (cat' a b) s <-> lang (Cat a b) s.
Proof.
  split.
  - intros H.
    destruct a; simpl in H;
      [ exfalso; exact (lang_void _ H)
      | exact (lang_cat Eps b "" s lang_eps H)
      | .. ];
      (destruct b; first [exact H | exfalso; exact (lang_void _ H)]).
  - intros H. apply lang_cat_inv in H as (s1 & s2 & -> & H1 & H2).
    destruct a; simpl;
      [ exfalso; exact (lang_void _ H1)
      | apply lang_eps_inv in H1; subst s1; exact H2
      | .. ];
      (destruct b;
       first [ exfalso; exact (lang_void _ H2) | apply lang_cat; assumption ]).
Qed.

Lemma lang_alt' a b s : lang (alt' a b) s <-> lang (Alt a b) s.
Proof.
  split.
  - intros H.
    destruct a; simpl in H; [apply lang_alt_r; exact H | ..];
      (destruct b; first [exact H | apply lang_alt_l; exact H]).
  - intros H. apply lang_alt_inv in H as [H | H].
    + destruct a; simpl; [exfalso; exact (lang_void _ H) | ..];
        (destruct b; first [exact H | apply lang_alt_l; exact H]).
    + destruct a; simpl; [exact H | ..];
        (destruct b;
         first [ exfalso; exact (lang_void _ H) | apply lang_alt_r; exact H ]).
Qed.

Lemma deriv_lang c r : forall s, lang (deriv c r) s <-> lang r (String c s).
Proof.
  induction r as [ | | p | r1 IH1 r2 IH2 | r1 IH1 r2 IH2 | r IH]; intros s; simpl.
  - split; intros H; inversion H.
  - split; intros H; inversion H.
  - destruct (p c) eqn:E; split; intros H.
    + apply lang_eps_inv in H. subst s. constructor. exact E.
    + apply lang_class_inv in H as (c' & [= _ ->] & _). constructor.
    + inversion H.
    + apply lang_class_inv in H as (c' & [= <- _] & E'). congruence.
  - assert (G : lang (cat' (deriv c r1) r2) s \/ (nullable r1 = true /\ lang (deriv c r2) s)
                <-> lang (Cat r1 r2) (String c s)).
    { split.
      - intros [H | [Hn H]].
        + apply lang_cat' in H. apply lang_cat_inv in H as (s1 & s2 & -> & H1 & H2).
          apply IH1 in H1. rewrite <- app_cons_str. apply lang_cat; assumption.
        + apply nullable_lang in Hn. apply IH2 in H.
          exact (lang_cat _ _ _ _ Hn H).
      - intros H. apply lang_cat_inv in H as (s1 & s2 & E & H1 & H2).
        symmetry in E.
        destruct (app_eq_cons_str _ _ _ _ E) as [(-> & ->) | (s1' & -> & ->)].
        + right. split; [apply nullable_lang, H1 | apply IH2, H2].
        + left. apply lang_cat'. apply lang_cat; [apply IH1, H1 | exact H2]. }
    destruct (nullable r1).
    + rewrite lang_alt'. rewrite <- G. split.
      * intros H. apply lang_alt_inv in H as [H | H]; auto.
      * intros [H | [_ H]]; [apply lang_alt_l | apply lang_alt_r]; exact H.
    + rewrite <- G. split; [auto | intros [H | [Hn _]]; [exact H | discriminate]].
  - rewrite lang_alt'. split.
    + intros H. apply lang_alt_inv in H as [H | H];
        [apply lang_alt_l, IH1 | apply lang_alt_r, IH2]; exact H.
    + intros H. apply lang_alt_inv in H as [H | H];
        [apply lang_alt_l, IH1 | apply lang_alt_r, IH2]; exact H.
  - rewrite lang_cat'. split.
    + intros H. apply lang_cat_inv in H as (s1 & s2 & -> & H1 & H2).
      apply IH in H1. rewrite <- app_cons_str. apply lang_star_cons; assumption.
    + intros H. apply lang_star_cons_inv in H as (s1 & s2 & -> & H1 & H2).
      apply lang_cat; [apply IH, H1 | exact H2].
Qed.

Lemma re_fullmatch_lang s : forall r, re_fullmatch r s = true <-> lang r s.
Proof.
  induction s as [|c s IH]; intros r; simpl.
  - apply nullable_lang.
  - rewrite IH. apply deriv_lang.
Qed.

(* ====================================================================== *)
(** ** What [is_valid_url] accepts *)
(* ====================================================================== *)

Lemma strip_final_newline_spec s body :
  strip_final_newline s = Some body <-> s = body +:+ String newline "".
Proof.
  revert body. induction s as [|c s IH]; intros body.
  - simpl. split; [discriminate|]. intros E. destruct body; discriminate.
  - destruct s as [|c' s'].
    + simpl. destruct (Ascii.eqb_spec c newline) as [->|Hc]; split.
      * intros [= <-]. reflexivity.
      * intros E. destruct body as [|b body]; [reflexivity|].
        rewrite app_cons_str in E. injection E as _ E. destruct body; discriminate.
      * discriminate.
      * intros E. destruct body as [|b body].
        -- injection E as E. contradiction.
        -- rewrite app_cons_str in E. injection E as _ E. destruct body; discriminate.
    + change (strip_final_newline (String c (String c' s')))
        with (option_map (String c) (strip_final_newline (String c' s'))).
      case_eq (strip_final_newline (String c' s')); [intros b E | intros E];
        simpl; split.
      * intros [= <-]. apply IH in E. rewrite app_cons_str, <- E. reflexivity.
      * intros E'. destruct body as [|b' body]; [discriminate|].
        rewrite app_cons_str in E'. injection E' as <- E'.
        apply IH in E'. congruence.
      * discriminate.
      * intros E'. destruct body as [|b' body]; [discriminate|].
        rewrite app_cons_str in E'. injection E' as <- E'.
        apply IH in E'. congruence.
Qed.

Lemma is_valid_url_lang s :
  is_valid_url s = true <->
  lang url_pattern s \/
  exists body, s = body +:+ String newline "" /\ lang url_pattern body.
Proof.
  unfold is_valid_url. rewrite orb_true_iff, re_fullmatch_lang. split.
  - intros [H | H]; [left; exact H|].
    destruct (strip_final_newline s) as [body|] eqn:E; [|discriminate].
    right. exists body. split; [apply strip_final_newline_spec, E|].
    apply re_fullmatch_lang, H.
  - intros [H | (body & E & H)]; [left; exact H|]. right.
    apply strip_final_newline_spec in E. rewrite E. apply re_fullmatch_lang, H.
Qed.

(** Literals match up to case. *)
Lemma lang_chr_cat_inv x r s :
  lang (Cat (chr x) r) s ->
  exists c rest, s = String c rest /\ to_lower c = to_lower x /\ lang r rest.
Proof.
  intros H. apply lang_cat_inv in H as (s1 & s2 & -> & H1 & H2).
  apply lang_class_inv in H1 as (c & -> & Hc). apply Ascii.eqb_eq in Hc.
  exists c, s2. auto.
Qed.

Lemma lang_Lit_inv l : forall s, lang (Lit l) s -> str_lower s = str_lower l.
Proof.
  induction l as [|x l IH]; intros s H; simpl in H.
  - apply lang_eps_inv in H. subst s. reflexivity.
  - apply lang_chr_cat_inv in H as (c & rest & -> & Hc & Hr).
    simpl. rewrite Hc, (IH _ Hr). reflexivity.
Qed.

Lemma str_lower_app s t : str_lower (s +:+ t) = str_lower s +:+ str_lower t.
Proof.
  induction s as [|c s IH]; [reflexivity|].
  rewrite app_cons_str. simpl. rewrite IH, app_cons_str. reflexivity.
Qed.

Lemma url_pattern_scheme s :
  lang url_pattern s ->
  exists scheme rest, s = scheme +:+ rest /\
    (str_lower scheme = "http://" \/ str_lower scheme = "https://").
Proof.
  unfold url_pattern. intros H.
  apply lang_cat_inv in H as (s1 & t1 & -> & H1 & H).
  apply lang_cat_inv in H as (s2 & t2 & -> & H2 & H).
  apply lang_cat_inv in H as (s3 & t3 & -> & H3 & _).
  apply lang_Lit_inv in H1. apply lang_Lit_inv in H3.
  exists (s1 +:+ s2 +:+ s3), t3. split.
  { rewrite !app_assoc_str. reflexivity. }
  rewrite !str_lower_app, H1, H3.
  apply lang_alt_inv in H2 as [H2 | H2].
  - apply lang_eps_inv in H2. subst s2. left. reflexivity.
  - apply lang_class_inv in H2 as (c & -> & Hc). apply Ascii.eqb_eq in Hc.
    right. simpl. rewrite Hc. reflexivity.
Qed.

(** X18. A string that [is_valid_url] accepts starts with [http://] or
    [https://], in any mix of upper and lower case. *)
Theorem is_valid_url_requires_http_scheme (url : string) :
  is_valid_url url = true ->
  exists scheme rest, url = scheme +:+ rest /\
    (str_lower scheme = "http://" \/ str_lower scheme = "https://").
Proof.
  intros H. apply is_valid_url_lang in H as [H | (body & -> & H)].
  - apply url_pattern_scheme, H.
  - destruct (url_pattern_scheme _ H) as (scheme & rest & -> & Hs).
    exists scheme, (rest +:+ String newline ""). split; [|exact Hs].
    apply app_assoc_str.
Qed.

Lemma is_valid_url_requires_http_scheme_witness :
  exists scheme rest, "HTTPS://example.com/" = scheme +:+ rest /\
    (str_lower scheme = "http://" \/ str_lower scheme = "https://").
Proof.
  apply (is_valid_url_requires_http_scheme "HTTPS://example.com/").
  vm_compute. reflexivity.
Defined.

(** Characters of a match come from the classes. *)
Lemma in_all_ascii c : In c all_ascii.
Proof.
  unfold all_ascii. rewrite <- (ascii_nat_embedding c).
  apply in_map, in_seq. pose proof (nat_ascii_bounded c). lia.
Qed.

Lemma classes_within_lang q r s :
  classes_within q r = true -> lang r s -> str_forall q s = true.
Proof.
  intros Hq H. induction H as [ | p c Hp | r1 r2 s1 s2 _ IH1 _ IH2
                               | r1 r2 s _ IH | r1 r2 s _ IH | r
                               | r s1 s2 _ IH1 _ IH2 ];
    cbn [classes_within] in Hq.
  - reflexivity.
  - pose proof (proj1 (forallb_forall _ _) Hq c (in_all_ascii c)) as Hc.
    cbv beta in Hc. rewrite Hp in Hc. simpl in Hc. cbn [str_forall].
    rewrite Hc. reflexivity.
  - apply andb_true_iff in Hq as [Hq1 Hq2].
    rewrite str_forall_app, IH1, IH2 by assumption. reflexivity.
  - apply andb_true_iff in Hq as [Hq1 Hq2]. auto.
  - apply andb_true_iff in Hq as [Hq1 Hq2]. auto.
  - reflexivity.
  - rewrite str_forall_app, IH1, IH2 by assumption. reflexivity.
Qed.

Lemma url_pattern_not_space : classes_within not_space url_pattern = true.
Proof. vm_compute. reflexivity. Qed.

(** X19. A string that [is_valid_url] accepts contains no whitespace,
    except that it may end with one newline. *)
Theorem is_valid_url_no_whitespace (url : string) :
  is_valid_url url = true ->
  exists body,
    (url = body \/ url = body +:+ String newline "") /\
    str_forall not_space body = true.
Proof.
  intros H. apply is_valid_url_lang in H as [H | (body & -> & H)].
  - exists url. split; [left; reflexivity|].
    exact (classes_within_lang _ _ _ url_pattern_not_space H).
  - exists body. split; [right; reflexivity|].
    exact (classes_within_lang _ _ _ url_pattern_not_space H).
Qed.

Lemma is_valid_url_no_whitespace_witness :
  exists body,
    ("https://example.com/a?b=1" = body \/
     "https://example.com/a?b=1" = body +:+ String newline "") /\
    str_forall not_space body = true.
Proof.
  apply (is_valid_url_no_whitespace "https://example.com/a?b=1").
  vm_compute. reflexivity.
Defined.

(** X20. For a string that does not end with a newline, appending one
    does not change the verdict of [is_valid_url]: the final [$] of the
    pattern also matches just before a newline that ends the string. *)
Theorem is_valid_url_final_newline (url : string) :
  strip_final_newline url = None ->
  is_valid_url (url +:+ String newline "") = is_valid_url url.
Proof.
  intros Hn. unfold is_valid_url. rewrite Hn, orb_false_r.
  assert (E : strip_final_newline (url +:+ String newline "") = Some url)
    by (apply strip_final_newline_spec; reflexivity).
  rewrite E.
  destruct (re_fullmatch url_pattern (url +:+ String newline "")) eqn:F;
    [|reflexivity].
  apply re_fullmatch_lang in F.
  pose proof (classes_within_lang _ _ _ url_pattern_not_space F) as W.
  rewrite str_forall_app in W. apply andb_true_iff in W as [_ W]. discriminate.
Qed.

Lemma is_valid_url_final_newline_witness :
  is_valid_url ("http://localhost" +:+ String newline "")
  = is_valid_url "http://localhost".
Proof. apply (is_valid_url_final_newline "http://localhost"). reflexivity. Defined.

(** Building matches. *)
Lemma lang_chr x : lang (chr x) (String x "").
Proof. apply lang_class. apply Ascii.eqb_refl. Qed.

Lemma lang_Lit_self l : lang (Lit l) l.
Proof.
  induction l as [|x l IH]; simpl; [constructor|].
  exact (lang_cat _ _ _ _ (lang_chr x) IH).
Qed.

Lemma lang_Opt_nil r : lang (Opt r) "".
Proof. apply lang_alt_l. constructor. Qed.

Lemma lang_Opt_some r s : lang r s -> lang (Opt r) s.
Proof. apply lang_alt_r. Qed.

Lemma lang_Star_class p s : str_forall p s = true -> lang (Star (Class p)) s.
Proof.
  induction s as [|c s IH]; simpl; intros H; [constructor|].
  apply andb_true_iff in H as [Hc Hs].
  exact (lang_star_cons _ _ _ (lang_class p c Hc) (IH Hs)).
Qed.

Lemma lang_Plus_class p s :
  s <> "" -> str_forall p s = true -> lang (Plus (Class p)) s.
Proof.
  destruct s as [|c s]; [contradiction|]. intros _ H. simpl in H.
  apply andb_true_iff in H as [Hc Hs].
  exact (lang_cat _ _ _ _ (lang_class p c Hc) (lang_Star_class p s Hs)).
Qed.

Lemma lang_digits_1_3 s : digits_1_3 s = true -> lang (Range 1 3 digit) s.
Proof.
  unfold digits_1_3. intros H.
  apply andb_true_iff in H as [H H3]. apply andb_true_iff in H as [Hd H1].
  apply Nat.leb_le in H1, H3.
  destruct s as [|c1 [|c2 [|c3 [|c4 s]]]]; simpl in H1, H3; try lia;
    simpl in Hd; rewrite ?andb_true_r in Hd;
    repeat match goal with
           | H : _ && _ = true |- _ => apply andb_true_iff in H as [? ?]
           end;
    assert (D : forall c, is_digit c = true -> lang digit (String c ""))
      by (intros c Hc; exact (lang_class is_digit c Hc)).
  - exact (lang_cat _ _ _ _
             (lang_cat _ _ _ _ (D c1 Hd) lang_eps) (lang_Opt_nil _)).
  - refine (lang_cat _ _ (String c1 "") (String c2 "")
              (lang_cat _ _ _ _ (D c1 _) lang_eps) _); [assumption|].
    apply lang_Opt_some.
    exact (lang_cat _ _ _ _ (D c2 ltac:(assumption)) (lang_Opt_nil _)).
  - refine (lang_cat _ _ (String c1 "") (String c2 (String c3 ""))
              (lang_cat _ _ _ _ (D c1 _) lang_eps) _); [assumption|].
    apply lang_Opt_some.
    refine (lang_cat _ _ (String c2 "") (String c3 "") (D c2 _) _); [assumption|].
    apply lang_Opt_some.
    exact (lang_cat _ _ _ _ (D c3 ltac:(assumption)) lang_eps).
Qed.

Lemma url_pattern_intro tls h port tail :
  lang (Opt (chr "s")) tls ->
  lang host h ->
  lang (Opt (Cat (chr ":") (Plus digit))) port ->
  lang (Alt (Opt (chr "/")) (Cat slash_or_query (Plus nonspace))) tail ->
  lang url_pattern ("http" +:+ tls +:+ "://" +:+ h +:+ port +:+ tail).
Proof.
  intros H1 H2 H3 H4. unfold url_pattern.
  repeat (apply lang_cat; [first [apply lang_Lit_self | assumption]|]).
  exact H4.
Qed.

(** X21. The numeric-host branch does not bound the octets: [http://]
    followed by any four groups of one to three digits separated by dots
    is accepted. *)
Theorem is_valid_url_ip_octets_unchecked (a b c d : string) :
  digits_1_3 a = true -> digits_1_3 b = true ->
  digits_1_3 c = true -> digits_1_3 d = true ->
  is_valid_url ("http://" +:+ a +:+ "." +:+ b +:+ "." +:+ c +:+ "." +:+ d) = true.
Proof.
  intros Ha Hb Hc Hd. apply is_valid_url_lang. left.
  assert (Hh : lang host (a +:+ "." +:+ b +:+ "." +:+ c +:+ "." +:+ d)).
  { apply lang_alt_r, lang_alt_r. unfold ip_address.
    repeat (apply lang_cat;
            [first [apply lang_digits_1_3; assumption | apply lang_chr]|]).
    apply lang_digits_1_3. assumption. }
  pose proof (url_pattern_intro "" _ "" ""
                (lang_Opt_nil _) Hh (lang_Opt_nil _) (lang_alt_l _ _ _ (lang_Opt_nil _)))
    as H.
  rewrite !app_assoc_str, !app_nil_str_r in H. exact H.
Qed.

Lemma is_valid_url_ip_octets_unchecked_witness :
  is_valid_url ("http://" +:+ "999" +:+ "." +:+ "0" +:+ "." +:+ "00" +:+ "." +:+ "256")
  = true.
Proof.
  apply (is_valid_url_ip_octets_unchecked "999" "0" "00" "256"); reflexivity.
Defined.

(** X22. [http://localhost:<port>/<path>] and its [https] form are
    accepted for every non-empty string of digits as port and every path
    without whitespace, the empty one included. *)
Theorem is_valid_url_localhost (tls : bool) (port path : string) :
  port <> "" -> str_forall is_digit port = true ->
  str_forall not_space path = true ->
  is_valid_url ((if tls then "https" else "http") +:+ "://localhost:"
                +:+ port +:+ "/" +:+ path) = true.
Proof.
  intros Hp Hd Hs. apply is_valid_url_lang. left.
  assert (Hport : lang (Opt (Cat (chr ":") (Plus digit))) (":" +:+ port)).
  { apply lang_Opt_some. apply lang_cat; [apply lang_chr|].
    apply lang_Plus_class; assumption. }
  assert (Htail : lang (Alt (Opt (chr "/")) (Cat slash_or_query (Plus nonspace)))
                    ("/" +:+ path)).
  { destruct path as [|c path].
    - apply lang_alt_l, lang_Opt_some, lang_chr.
    - apply lang_alt_r. apply lang_cat; [apply lang_class; reflexivity|].
      apply lang_Plus_class; [discriminate | exact Hs]. }
  assert (Hhost : lang host "localhost").
  { apply lang_alt_r, lang_alt_l, lang_Lit_self. }
  assert (Htls : lang (Opt (chr "s")) (if tls then "s" else "")).
  { destruct tls; [apply lang_Opt_some, lang_chr | apply lang_Opt_nil]. }
  pose proof (url_pattern_intro _ _ _ _ Htls Hhost Hport Htail) as H.
  destruct tls; exact H.
Qed.

Lemma is_valid_url_localhost_witness :
  is_valid_url ("https" +:+ "://localhost:" +:+ "8080" +:+ "/" +:+ "a?b=1") = true.
Proof.
  apply (is_valid_url_localhost true "8080" "a?b=1");
    [discriminate | reflexivity | reflexivity].
Defined.

(** Case. *)
Lemma str_lower_app_inv t1 : forall s t2,
  str_lower s = t1 +:+ t2 ->
  exists s1 s2, s = s1 +:+ s2 /\ str_lower s1 = t1 /\ str_lower s2 = t2.
Proof.
  induction t1 as [|c t1 IH]; intros s t2 E.
  - exists "", s. auto.
  - rewrite app_cons_str in E. destruct s as [|c' s]; [discriminate|].
    simpl in E. injection E as Hc E.
    destruct (IH _ _ E) as (s1 & s2 & -> & H1 & H2).
    exists (String c' s1), s2. rewrite app_cons_str. simpl. rewrite Hc, H1. auto.
Qed.

Lemma classes_case_blind_lang r s :
  classes_case_blind r = true -> lang r s -> lang r (str_lower s).
Proof.
  intros Hq H. induction H as [ | p c Hp | r1 r2 s1 s2 _ IH1 _ IH2
                               | r1 r2 s _ IH | r1 r2 s _ IH | r
                               | r s1 s2 _ IH1 _ IH2 ];
    cbn [classes_case_blind] in Hq.
  - constructor.
  - pose proof (proj1 (forallb_forall _ _) Hq c (in_all_ascii c)) as Hc.
    cbv beta in Hc. apply Bool.eqb_prop in Hc.
    cbn [str_lower]. constructor. congruence.
  - apply andb_true_iff in Hq as [Hq1 Hq2].
    rewrite str_lower_app. apply lang_cat; auto.
  - apply andb_true_iff in Hq as [Hq1 Hq2]. apply lang_alt_l. auto.
  - apply andb_true_iff in Hq as [Hq1 Hq2]. apply lang_alt_r. auto.
  - constructor.
  - rewrite str_lower_app. apply lang_star_cons; auto.
Qed.

Lemma classes_case_blind_lang_inv r t :
  classes_case_blind r = true -> lang r t ->
  forall s, str_lower s = t -> lang r s.
Proof.
  intros Hq H. induction H as [ | p c Hp | r1 r2 s1 s2 _ IH1 _ IH2
                               | r1 r2 s _ IH | r1 r2 s _ IH | r
                               | r s1 s2 _ IH1 _ IH2 ];
    cbn [classes_case_blind] in Hq; intros s0 E.
  - destruct s0; [constructor | discriminate].
  - destruct s0 as [|c0 [|c1 s0]]; try discriminate.
    simpl in E. injection E as <-.
    pose proof (proj1 (forallb_forall _ _) Hq c0 (in_all_ascii c0)) as Hc.
    cbv beta in Hc. apply Bool.eqb_prop in Hc. constructor. congruence.
  - apply andb_true_iff in Hq as [Hq1 Hq2].
    destruct (str_lower_app_inv _ _ _ E) as (a & b & -> & Ea & Eb).
    apply lang_cat; auto.
  - apply andb_true_iff in Hq as [Hq1 Hq2]. apply lang_alt_l. auto.
  - apply andb_true_iff in Hq as [Hq1 Hq2]. apply lang_alt_r. auto.
  - destruct s0; [constructor | discriminate].
  - destruct (str_lower_app_inv _ _ _ E) as (a & b & -> & Ea & Eb).
    apply lang_star_cons; auto.
Qed.

Lemma url_pattern_case_blind : classes_case_blind url_pattern = true.
Proof. vm_compute. reflexivity. Qed.

Lemma strip_final_newline_lower s :
  strip_final_newline (str_lower s) = option_map str_lower (strip_final_newline s).
Proof.
  induction s as [|c s IH]; [reflexivity|].
  destruct s as [|c' s'].
  - simpl. unfold to_lower.
    destruct (is_upper c) eqn:U; [|destruct (Ascii.eqb c newline); reflexivity].
    destruct (Ascii.eqb_spec c newline) as [->|Hc]; [discriminate U|].
    destruct (Ascii.eqb_spec (ascii_of_N (N_of_ascii c + 32)) newline) as [E|E];
      [|reflexivity].
    exfalso. apply (f_equal N_of_ascii) in E.
    unfold is_upper, code in U. apply andb_true_iff in U as [U1 U2].
    apply Z.leb_le in U1, U2.
    rewrite N_ascii_embedding in E by lia.
    change (N_of_ascii newline) with 10%N in E. lia.
  - change (str_lower (String c (String c' s')))
      with (String (to_lower c) (str_lower (String c' s'))).
    change (strip_final_newline (String c (String c' s')))
      with (option_map (String c) (strip_final_newline (String c' s'))).
    change (str_lower (String c' s')) with (String (to_lower c') (str_lower s')) in *.
    change (strip_final_newline (String (to_lower c) (String (to_lower c') (str_lower s'))))
      with (option_map (String (to_lower c))
              (strip_final_newline (String (to_lower c') (str_lower s')))).
    rewrite IH. destruct (strip_final_newline (String c' s')); reflexivity.
Qed.

(** X23. [is_valid_url] ignores letter case: a string and its lower-case
    form get the same verdict. *)
Theorem is_valid_url_ignores_case (url : string) :
  is_valid_url (str_lower url) = is_valid_url url.
Proof.
  assert (F : forall s, re_fullmatch url_pattern (str_lower s)
                        = re_fullmatch url_pattern s).
  { intros s. apply eq_true_iff_eq. rewrite !re_fullmatch_lang. split.
    - intros H. exact (classes_case_blind_lang_inv _ _ url_pattern_case_blind H s eq_refl).
    - apply classes_case_blind_lang, url_pattern_case_blind. }
  unfold is_valid_url. rewrite F, strip_final_newline_lower.
  destruct (strip_final_newline url) as [body|]; simpl; [rewrite F|]; reflexivity.
Qed.

(** The verdict on a few strings, the last but four with a final newline. *)
Example is_valid_url_examples :
  map is_valid_url
    ["http://localhost"; "https://example.com/"; "HTTP://Example.COM/a?b=1";
     "http://999.1.22.333:8080/x"; "ftp://example.com"; "http://example";
     "http://localhost/a b"; "http://localhost" +:+ String newline "";
     "http://a-.com"; "http://-a.com"; "https://sub.example.co.uk."; ""]
  = [true; true; true; true; false; false; false; true; false; false; true; false].
Proof. vm_compute. reflexivity. Qed.
